(** * kantin: endpoint rotation, identifier extraction and variant selection

    A shallow embedding of the decision logic of [script.js] (and of the
    older single-mirror copy of the same page script) together with the
    properties the specification states about it.

    Conventions of the embedding:
    - a JavaScript string is a [string] (its UTF-8 bytes);
    - a JavaScript number that holds a safe integer (one between
      -(2^53 - 1) and 2^53 - 1, where numbers are exact) is the [Z] of
      the same value; the properties carry this range wherever the code
      computes with the number;
    - [null] and [undefined] are [None];
    - an abrupt completion ([throw], a rejected promise awaited) is [Throw]. *)

From Stdlib Require Import Bool Arith ZArith Lia List Ascii String.
From Stdlib Require Import Permutation Sorted.
From Stdlib Require DecimalString DecimalN.
Import ListNotations.

Local Open Scope string_scope.
Local Open Scope list_scope.

(** ** JavaScript values used by the script *)

(** Truthiness of a string-or-null value: [null], [undefined] and the empty
    string are falsy. *)
Definition truthy (v : option string) : bool :=
  match v with
  | None => false
  | Some s => negb (s =? "")
  end.

(** [a || b] on string-or-null values. *)
Definition js_or (a b : option string) : option string :=
  if truthy a then a else b.

(** [a ?? d] on an optional number. *)
Definition nullish (a : option Z) (d : Z) : Z :=
  match a with
  | None => d
  | Some z => z
  end.

(** [a || d] on an optional number: [undefined], [null] and [0] all give
    [d]. *)
Definition num_or (a : option Z) (d : Z) : Z :=
  match a with
  | None => d
  | Some z => if (z =? 0)%Z then d else z
  end.

(** [parseInt(x)] for a number [x]: the number is first rendered as a
    string, and the leading decimal integer of that string is read.  For
    a safe integer the string is its decimal rendering, and [parseInt]
    gives the number back.  This holds in that range only (from 1e21 on
    the rendering has an exponent, and [parseInt] reads the digit before
    it): the properties of the selectors that depend on the keys assume
    [safe_qualities] or [safe_bitrates] of the list. *)
Definition parseInt (z : Z) : Z := z.

(** ** Regular expressions

    A backtracking matcher for the fragment of the regular-expression
    language the script uses: literals, character classes given by ranges,
    alternation, the greedy [?] and [{n,}] quantifiers and numbered
    capturing groups, with the [i] flag. *)

Inductive regex : Type :=
| Chr (c : ascii)
| Cls (ranges : list (ascii * ascii))
| Eps
| Cat (r1 r2 : regex)
| Alt (r1 r2 : regex)
| Opt (r : regex)
| AtLeast (n : nat) (ranges : list (ascii * ascii))
| Grp (k : nat) (r : regex).

Definition is_upper (c : ascii) : bool :=
  ((65 <=? nat_of_ascii c) && (nat_of_ascii c <=? 90))%nat.

Definition is_lower (c : ascii) : bool :=
  ((97 <=? nat_of_ascii c) && (nat_of_ascii c <=? 122))%nat.

Definition to_upper (c : ascii) : ascii :=
  if is_lower c then ascii_of_nat (nat_of_ascii c - 32) else c.

Definition to_lower (c : ascii) : ascii :=
  if is_upper c then ascii_of_nat (nat_of_ascii c + 32) else c.

(** Comparison of an input character with a pattern character; under the
    [i] flag both are canonicalised to upper case. *)
Definition chr_match (ic : bool) (a c : ascii) : bool :=
  if ic then Ascii.eqb (to_upper a) (to_upper c) else Ascii.eqb a c.

Definition in_ranges (rs : list (ascii * ascii)) (a : ascii) : bool :=
  existsb (fun r => ((nat_of_ascii (fst r) <=? nat_of_ascii a)
                     && (nat_of_ascii a <=? nat_of_ascii (snd r)))%nat) rs.

(** Under the [i] flag a character belongs to a class when some member of
    the class has the same canonical form. *)
Definition cls_match (ic : bool) (rs : list (ascii * ascii)) (a : ascii) : bool :=
  if ic then in_ranges rs a || in_ranges rs (to_upper a) || in_ranges rs (to_lower a)
  else in_ranges rs a.

Definition captures := list (nat * string).

Fixpoint capture (k : nat) (cs : captures) : option string :=
  match cs with
  | [] => None
  | (j, s) :: cs' => if Nat.eqb j k then Some s else capture k cs'
  end.

(** The text consumed between the position [s] and the later position [s']. *)
Definition consumed (s s' : string) : string :=
  substring 0 (String.length s - String.length s') s.

(** Greedy [{n,}] over a character class: take one more character whenever
    possible, give it back when the rest of the pattern fails. *)
Fixpoint rep (ic : bool) (rs : list (ascii * ascii)) (n : nat) (s : string)
         (k : string -> option captures) : option captures :=
  match s with
  | String a s' =>
      if cls_match ic rs a then
        match rep ic rs (Nat.pred n) s' k with
        | Some r => Some r
        | None => if Nat.eqb n 0 then k s else None
        end
      else if Nat.eqb n 0 then k s else None
  | EmptyString => if Nat.eqb n 0 then k s else None
  end.

Fixpoint run (ic : bool) (r : regex) (s : string) (cs : captures)
         (k : string -> captures -> option captures) : option captures :=
  match r with
  | Chr c =>
      match s with
      | String a s' => if chr_match ic a c then k s' cs else None
      | EmptyString => None
      end
  | Cls rs =>
      match s with
      | String a s' => if cls_match ic rs a then k s' cs else None
      | EmptyString => None
      end
  | Eps => k s cs
  | Cat r1 r2 => run ic r1 s cs (fun s1 c1 => run ic r2 s1 c1 k)
  | Alt r1 r2 =>
      match run ic r1 s cs k with
      | Some c => Some c
      | None => run ic r2 s cs k
      end
  | Opt r1 =>
      match run ic r1 s cs k with
      | Some c => Some c
      | None => k s cs
      end
  | AtLeast n rs => rep ic rs n s (fun s' => k s' cs)
  | Grp j r1 => run ic r1 s cs (fun s1 c1 => k s1 ((j, consumed s s1) :: c1))
  end.

(** A match anchored at the start of [s]. *)
Definition match_here (ic : bool) (r : regex) (s : string) : option captures :=
  run ic r s [] (fun _ c => Some c).

(** [re.exec(s)] without the [g] flag: the leftmost start position at which
    the pattern matches. *)
Fixpoint exec (ic : bool) (r : regex) (s : string) : option captures :=
  match match_here ic r s with
  | Some c => Some c
  | None =>
      match s with
      | EmptyString => None
      | String _ s' => exec ic r s'
      end
  end.

(** [re.test(s)]. *)
Definition test (ic : bool) (r : regex) (s : string) : bool :=
  match exec ic r s with
  | Some _ => true
  | None => false
  end.

(** A literal run of characters. *)
Fixpoint lit (p : string) : regex :=
  match p with
  | EmptyString => Eps
  | String c p' => Cat (Chr c) (lit p')
  end.

(** ** Variant selector *)

(** One stream descriptor of the upstream document.  The fields the script
    reads are [container], [mimeType], [quality], [bitrate] and [url]; each
    may be absent. *)
Record StreamDescriptor : Type := mkStream {
  container : option string;
  mimeType : option string;
  quality : option Z;
  bitrate : option Z;
  url : option string
}.

(** [Array.prototype.sort(comparefn)]: the sort is stable, and for a
    consistent comparator the stable sorted arrangement is unique; it is
    computed here by insertion from the right. *)
Section Sort.
Context {A : Type}.
Variable cmp : A -> A -> Z.

Fixpoint insert_sorted (x : A) (l : list A) : list A :=
  match l with
  | [] => [x]
  | y :: t => if (cmp x y <=? 0)%Z then x :: y :: t else y :: insert_sorted x t
  end.

Fixpoint js_sort (l : list A) : list A :=
  match l with
  | [] => []
  | x :: t => insert_sorted x (js_sort t)
  end.

End Sort.

(** [(muxed || [])] for an array-or-null argument. *)
Definition or_empty {A : Type} (l : option (list A)) : list A :=
  match l with
  | None => []
  | Some l' => l'
  end.

(** The pattern [/mp4/i]. *)
Definition MP4_RE : regex := lit "mp4".

(** [s.container || s.mimeType || ""] *)
Definition container_hint (s : StreamDescriptor) : string :=
  match js_or (js_or (container s) (mimeType s)) (Some "") with
  | Some h => h
  | None => ""
  end.

Definition is_mp4 (s : StreamDescriptor) : bool :=
  test true MP4_RE (container_hint s).

Definition by_quality (a b : StreamDescriptor) : Z :=
  (parseInt (nullish (quality b) 0) - parseInt (nullish (quality a) 0))%Z.

Definition by_bitrate (a b : StreamDescriptor) : Z :=
  (parseInt (num_or (bitrate b) 0) - parseInt (num_or (bitrate a) 0))%Z.

(** [candidates[0] || (muxed || [])[0] || null]: array elements are
    objects, hence truthy when present. *)
Definition first_of {A : Type} (a b : list A) : option A :=
  match hd_error a with
  | Some x => Some x
  | None => hd_error b
  end.

Definition pickBestMp4 (muxed : option (list StreamDescriptor)) : option StreamDescriptor :=
  let candidates := js_sort by_quality (filter is_mp4 (or_empty muxed)) in
  first_of candidates (or_empty muxed).

Definition pickBestAudio (audios : option (list StreamDescriptor)) : option StreamDescriptor :=
  hd_error (js_sort by_bitrate (or_empty audios)).

(** The older copy of the page script has the same two selectors, without
    the null guard and without [parseInt] on the quality. *)
Module Legacy.

Definition by_quality (a b : StreamDescriptor) : Z :=
  (nullish (quality b) 0 - nullish (quality a) 0)%Z.

Definition pickBestMp4 (muxed : list StreamDescriptor) : option StreamDescriptor :=
  let candidates := js_sort by_quality (filter is_mp4 muxed) in
  first_of candidates muxed.

Definition pickBestAudio (audios : list StreamDescriptor) : option StreamDescriptor :=
  hd_error (js_sort by_bitrate audios).

End Legacy.

(** ** Completions, promises and the network *)

Inductive Error : Type :=
| AllOffline                (* "All public API instances seem offline or blocked." *)
| ApiError (status : Z)     (* `API error ${status}` *)
| FetchRejected             (* [fetch] rejected: no response was received *)
| BodyRejected              (* [r.json()] rejected: the body is not JSON *)
| InvalidURL.               (* the [TypeError] of [new URL] *)

Inductive completion (A : Type) : Type :=
| Normal (a : A)
| Throw (e : Error).

Arguments Normal {A} a.
Arguments Throw {A} e.

(** A promise, seen from the code that awaits it: the instant at which it
    settles and how.  [Normal] is fulfilment, [Throw] rejection. *)
Record Promise (A : Type) : Type := mkPromise {
  settled_at : nat;
  outcome : completion A
}.

Arguments mkPromise {A} settled_at outcome.
Arguments settled_at {A} p.
Arguments outcome {A} p.

(** [p.then(f)] for a callback that does not throw. *)
Definition p_then {A B : Type} (p : Promise A) (f : A -> B) : Promise B :=
  mkPromise (settled_at p)
            match outcome p with
            | Normal a => Normal (f a)
            | Throw e => Throw e
            end.

(** [p.catch(h)] for a handler that does not throw. *)
Definition p_catch {A : Type} (p : Promise A) (h : Error -> A) : Promise A :=
  mkPromise (settled_at p)
            match outcome p with
            | Normal a => Normal a
            | Throw e => Normal (h e)
            end.

(** The rejection that happens first in time among [ps] (the earlier array
    position wins a tie), if any. *)
Fixpoint first_rejection {A : Type} (ps : list (Promise A)) : option (nat * Error) :=
  match ps with
  | [] => None
  | p :: ps' =>
      match outcome p, first_rejection ps' with
      | Throw e, Some (t, e') => if (settled_at p <=? t)%nat then Some (settled_at p, e) else Some (t, e')
      | Throw e, None => Some (settled_at p, e)
      | Normal _, r => r
      end
  end.

Fixpoint fulfilled_values {A : Type} (ps : list (Promise A)) : list A :=
  match ps with
  | [] => []
  | p :: ps' =>
      match outcome p with
      | Normal a => a :: fulfilled_values ps'
      | Throw _ => fulfilled_values ps'
      end
  end.

(** [Promise.all(ps)]: rejects as soon as one member rejects; otherwise it
    fulfils, once the last member has settled, with the members' values in
    ARRAY order. *)
Definition promise_all {A : Type} (ps : list (Promise A)) : Promise (list A) :=
  match first_rejection ps with
  | Some (t, e) => mkPromise t (Throw e)
  | None => mkPromise (fold_right Nat.max 0%nat (map settled_at ps)) (Normal (fulfilled_values ps))
  end.

Inductive Method : Type := GET | HEAD.

Record Request : Type := mkRequest {
  method : Method;
  target : string
}.

(** The module-level variables of [script.js]. *)
Record Globals : Type := mkGlobals {
  currentAPIIndex : Z;
  lastHealthyAPI : option string
}.

(** What an observer of a run sees, in program order: the requests handed
    to [fetch] and the assignments to the two module-level variables. *)
Inductive Event : Type :=
| Sent (r : Request)
| SetLastHealthyAPI (v : option string)
| SetCurrentAPIIndex (z : Z).

(** ** The mirrors *)

Definition PIPED_APIS : list string :=
  [ "https://pipedapi.kavin.rocks";
    "https://pipedapi.adminforge.de";
    "https://pipedapi.syncpundit.io";
    "https://pipedapi.nosebs.de";
    "https://pipedapi.tokhmi.xyz" ].

(** [arr[k]] for a numeric index: [undefined] outside the array. *)
Definition js_nth (l : list string) (k : Z) : option string :=
  if (k <? 0)%Z then None else nth_error l (Z.to_nat k).

Fixpoint indexOf_from (l : list string) (x : string) (k : Z) : Z :=
  match l with
  | [] => (-1)%Z
  | y :: t => if (y =? x) then k else indexOf_from t x (k + 1)%Z
  end.

(** [arr.indexOf(x)]: the first position of [x], or [-1]. *)
Definition indexOf (l : list string) (x : string) : Z := indexOf_from l x 0%Z.

(** A string-or-undefined value placed in a string concatenation. *)
Definition str_of (v : option string) : string :=
  match v with
  | Some s => s
  | None => "undefined"
  end.

(** The string held by a truthy value. *)
Definition as_truthy (v : option string) : option string :=
  if truthy v then v else None.

(** [results.find(Boolean)] *)
Definition find_truthy (l : list (option string)) : option string :=
  match find truthy l with
  | Some v => v
  | None => None
  end.

Section Failover.

(** The parsed body of a response; the selection logic does not look
    inside it. *)
Variable JSON : Type.

Record Response : Type := mkResponse {
  status : Z;
  body : option JSON      (* [None]: the body does not parse as JSON *)
}.

(** [r.ok] *)
Definition ok (r : Response) : bool :=
  ((200 <=? status r) && (status r <=? 299))%Z.

(** The network: what the promise returned by [fetch] will settle to, given
    everything observed so far and the request. *)
Variable net : list Event -> Request -> Promise Response.

(** Computations of the script: they read and write the module-level
    variables, extend the observation log, and complete normally or
    abruptly.  An abrupt completion keeps the state reached so far. *)
Definition M (A : Type) : Type :=
  Globals -> list Event -> completion A * Globals * list Event.

Definition ret {A : Type} (a : A) : M A :=
  fun g w => (Normal a, g, w).

Definition throw {A : Type} (e : Error) : M A :=
  fun g w => (Throw e, g, w).

Definition bind {A B : Type} (m : M A) (f : A -> M B) : M B :=
  fun g w =>
    match m g w with
    | (Normal a, g', w') => f a g' w'
    | (Throw e, g', w') => (Throw e, g', w')
    end.

Definition try_catch {A : Type} (m : M A) (h : Error -> M A) : M A :=
  fun g w =>
    match m g w with
    | (Normal a, g', w') => (Normal a, g', w')
    | (Throw e, g', w') => h e g' w'
    end.

Notation "x <- m ;; k" := (bind m (fun x => k))
  (at level 61, m at next level, right associativity).
Notation "m ;;; k" := (bind m (fun _ => k))
  (at level 61, right associativity).

Definition read_lastHealthyAPI : M (option string) :=
  fun g w => (Normal (lastHealthyAPI g), g, w).

Definition read_currentAPIIndex : M Z :=
  fun g w => (Normal (currentAPIIndex g), g, w).

Definition write_lastHealthyAPI (v : option string) : M unit :=
  fun g w => (Normal tt, mkGlobals (currentAPIIndex g) v, w ++ [SetLastHealthyAPI v]).

Definition write_currentAPIIndex (z : Z) : M unit :=
  fun g w => (Normal tt, mkGlobals z (lastHealthyAPI g), w ++ [SetCurrentAPIIndex z]).

(** [fetch(target, { method })]: the request leaves now, the promise
    settles later. *)
Definition fetch (rq : Request) : M (Promise Response) :=
  fun g w => (Normal (net w rq), g, w ++ [Sent rq]).

(** [await p] *)
Definition await {A : Type} (p : Promise A) : M A :=
  fun g w => (outcome p, g, w).

(** [r.json()] awaited. *)
Definition json (r : Response) : M JSON :=
  match body r with
  | Some d => ret d
  | None => throw BodyRejected
  end.

(** A synchronous loop that collects one value per iteration. *)
Fixpoint for_each {A B : Type} (l : list A) (f : A -> M B) : M (list B) :=
  match l with
  | [] => ret []
  | a :: l' => b <- f a ;; bs <- for_each l' f ;; ret (b :: bs)
  end.

(** *** The health cache

    The script has no separate functions for the three cache operations of
    the specification; they are these fragments of [chooseAPI] and
    [apiFetchJSON]. *)

(** [if (lastHealthyAPI) return lastHealthyAPI;] reads the cache. *)
Definition getCachedHealthy : M (option string) :=
  cached <- read_lastHealthyAPI ;; ret (as_truthy cached).

(** [lastHealthyAPI = healthy;] *)
Definition markHealthy (healthy : string) : M unit :=
  write_lastHealthyAPI (Some healthy).

(** [lastHealthyAPI = null;
     currentAPIIndex = (currentAPIIndex + 1) % PIPED_APIS.length;] *)
Definition markUnhealthy : M unit :=
  write_lastHealthyAPI None ;;;
  idx <- read_currentAPIIndex ;;
  write_currentAPIIndex (Z.rem (idx + 1) (Z.of_nat (List.length PIPED_APIS))).

(** *** chooseAPI *)

(** The mirror probed at iteration [i] of the loop. *)
Definition probe_base (idx : Z) (i : nat) : option string :=
  js_nth PIPED_APIS (Z.rem (idx + Z.of_nat i) (Z.of_nat (List.length PIPED_APIS))).

(** [(r) => (r.ok || r.status === 404 ? base : null)] *)
Definition probe_verdict (base : option string) (r : Response) : option string :=
  if ok r || (status r =? 404)%Z then base else None.

(** The [for] loop of [chooseAPI]: one HEAD request per mirror, all sent
    before anything is awaited. *)
Definition probe_attempts (endpoint : string) : M (list (Promise (option string))) :=
  for_each (seq 0 (List.length PIPED_APIS)) (fun i =>
    idx <- read_currentAPIIndex ;;
    let base := probe_base idx i in
    p <- fetch (mkRequest HEAD (str_of base ++ endpoint)) ;;
    ret (p_catch (p_then p (probe_verdict base)) (fun _ => None))).

Definition chooseAPI (endpoint : string) : M string :=
  cached <- getCachedHealthy ;;
  match cached with
  | Some api => ret api
  | None =>
      attempts <- probe_attempts endpoint ;;
      results <- await (promise_all attempts) ;;
      match as_truthy (find_truthy results) with
      | None => throw AllOffline
      | Some healthy =>
          markHealthy healthy ;;;
          write_currentAPIIndex (indexOf PIPED_APIS healthy) ;;;
          ret healthy
      end
  end.

(** *** apiFetchJSON *)

(** [const r = await fetch(base + path);
     if (!r.ok) throw new Error(`API error ${r.status}`);
     return await r.json();] *)
Definition request_json (base path : string) : M JSON :=
  p <- fetch (mkRequest GET (base ++ path)) ;;
  r <- await p ;;
  if negb (ok r) then throw (ApiError (status r)) else json r.

Definition first_attempt (path : string) : M JSON :=
  base <- chooseAPI path ;;
  request_json base path.

Definition second_attempt (path : string) : M JSON :=
  markUnhealthy ;;;
  base2 <- chooseAPI path ;;
  request_json base2 path.

Definition apiFetchJSON (path : string) : M JSON :=
  try_catch (first_attempt path) (fun _ => second_attempt path).

End Failover.

Arguments status {JSON} r.
Arguments body {JSON} r.
Arguments mkResponse {JSON} status body.
Arguments ok {JSON} r.
Arguments ret {A} a.
Arguments throw {A} e.
Arguments bind {A B} m f.
Arguments try_catch {A} m h.
Arguments await {A} p.
Arguments for_each {A B} l f.
Arguments fetch {JSON} net rq.
Arguments probe_verdict {JSON} base r.
Arguments probe_attempts {JSON} net endpoint.
Arguments chooseAPI {JSON} net endpoint.
Arguments request_json {JSON} net base path.
Arguments first_attempt {JSON} net path.
Arguments second_attempt {JSON} net path.
Arguments apiFetchJSON {JSON} net path.
Arguments json {JSON} r.

(** The state of the page when the script has just been loaded. *)
Definition initial : Globals := mkGlobals 0 None.

(** ** The URL constructor

    [new URL(text)] is the platform's URL parser.  The script reads three
    things of the parsed URL: [hostname], [pathname] and
    [searchParams.get(name)].  The model follows the parser of the URL
    Standard for input without a base URL: surrounding C0 controls and
    spaces are stripped, tabs and newlines are dropped, a scheme is
    required, the special schemes ignore any run of slashes before the
    authority, credentials and port are split off the host, dot segments
    of the path are resolved, and the query is cut at the fragment.

    The model is the platform's parser on the texts that [in_model]
    accepts, and the properties that speak of a parsed URL assume it.
    Outside the model (the text is kept as written where the platform
    would rewrite or reject it): hosts that are IP literals, that end in a
    number, or that carry non-ASCII or punycode labels; [file:] URLs; and
    the replacement of ill-formed UTF-8 after percent-decoding, which can
    only show in a value that is not ASCII. *)

Record URL : Type := mkURL {
  protocol : string;
  hostname : string;
  pathname : string;
  query : string
}.

Definition code (c : ascii) : nat := nat_of_ascii c.

Definition one_of (cs : string) (c : ascii) : bool :=
  existsb (Ascii.eqb c) (list_ascii_of_string cs).

Definition code_in (l : list nat) (c : ascii) : bool :=
  existsb (Nat.eqb (code c)) l.

Definition is_c0_or_space (c : ascii) : bool := (code c <=? 32)%nat.

Definition is_tab_or_newline (c : ascii) : bool := code_in [9; 10; 13]%nat c.

Definition is_digit (c : ascii) : bool := ((48 <=? code c) && (code c <=? 57))%nat.

Definition is_alpha (c : ascii) : bool := is_upper c || is_lower c.

Fixpoint str_filter (keep : ascii -> bool) (s : string) : string :=
  match s with
  | EmptyString => EmptyString
  | String c s' => if keep c then String c (str_filter keep s') else str_filter keep s'
  end.

Fixpoint str_map (f : ascii -> ascii) (s : string) : string :=
  match s with
  | EmptyString => EmptyString
  | String c s' => String (f c) (str_map f s')
  end.

Fixpoint str_forall (p : ascii -> bool) (s : string) : bool :=
  match s with
  | EmptyString => true
  | String c s' => p c && str_forall p s'
  end.

Fixpoint trim_left (s : string) : string :=
  match s with
  | EmptyString => EmptyString
  | String c s' => if is_c0_or_space c then trim_left s' else s
  end.

Fixpoint trim_right (s : string) : string :=
  match s with
  | EmptyString => EmptyString
  | String c s' =>
      match trim_right s' with
      | EmptyString => if is_c0_or_space c then EmptyString else String c EmptyString
      | t => String c t
      end
  end.

(** The longest prefix without a stop character, and the rest. *)
Fixpoint span (stop : ascii -> bool) (s : string) : string * string :=
  match s with
  | EmptyString => (EmptyString, EmptyString)
  | String c s' =>
      if stop c then (EmptyString, s)
      else let (a, b) := span stop s' in (String c a, b)
  end.

(** The pieces between delimiters; there is always at least one. *)
Fixpoint split_on (delim : ascii -> bool) (s : string) : list string :=
  match s with
  | EmptyString => [EmptyString]
  | String c s' =>
      if delim c then EmptyString :: split_on delim s'
      else match split_on delim s' with
           | [] => [String c EmptyString]
           | h :: t => String c h :: t
           end
  end.

Fixpoint drop_while (p : ascii -> bool) (s : string) : string :=
  match s with
  | EmptyString => EmptyString
  | String c s' => if p c then drop_while p s' else s
  end.

(** What follows the last ["@"], when there is one. *)
Fixpoint after_last_at (s : string) : option string :=
  match s with
  | EmptyString => None
  | String c s' =>
      match after_last_at s' with
      | Some r => Some r
      | None => if Ascii.eqb c "@" then Some s' else None
      end
  end.

Definition hex_value (c : ascii) : option nat :=
  if is_digit c then Some (code c - 48)%nat
  else if ((65 <=? code c) && (code c <=? 70))%nat then Some (code c - 55)%nat
  else if ((97 <=? code c) && (code c <=? 102))%nat then Some (code c - 87)%nat
  else None.

Fixpoint percent_decode (s : string) : string :=
  match s with
  | EmptyString => EmptyString
  | String c t =>
      if Ascii.eqb c "%" then
        match t with
        | String h (String l s') =>
            match hex_value h, hex_value l with
            | Some a, Some b => String (ascii_of_nat (16 * a + b)) (percent_decode s')
            | _, _ => String c (percent_decode t)
            end
        | _ => String c (percent_decode t)
        end
      else String c (percent_decode t)
  end.

Definition hex_digit (n : nat) : ascii :=
  if (n <? 10)%nat then ascii_of_nat (48 + n) else ascii_of_nat (55 + n).

Definition percent_encode_with (must : ascii -> bool) (s : string) : string :=
  (fix go (s : string) : string :=
     match s with
     | EmptyString => EmptyString
     | String c s' =>
         if must c
         then String "%" (String (hex_digit (code c / 16)) (String (hex_digit (code c mod 16)) (go s')))
         else String c (go s')
     end) s.

(** The C0 control percent-encode set. *)
Definition c0_encode_set (c : ascii) : bool :=
  (code c <=? 31)%nat || (127 <=? code c)%nat.

(** The path percent-encode set. *)
Definition path_encode_set (c : ascii) : bool :=
  c0_encode_set c || code_in [32; 34; 35; 60; 62; 63; 94; 96; 123; 125]%nat c.

(** Forbidden host code points, and forbidden domain code points. *)
Definition forbidden_host (c : ascii) : bool :=
  code_in [0; 9; 10; 13; 32; 35; 47; 58; 60; 62; 63; 64; 91; 92; 93; 94; 124]%nat c.

Definition forbidden_domain (c : ascii) : bool :=
  forbidden_host c || (code c <=? 31)%nat || code_in [37; 127]%nat c.

Definition is_special (scheme : string) : bool :=
  existsb (String.eqb scheme) ["http"; "https"; "ws"; "wss"; "ftp"].

(** Scheme start state and scheme state: a letter, then letters, digits,
    ["+"], ["-"] and ["."], then [":"].  Gives the lower-cased scheme and
    what follows the colon. *)
Fixpoint scheme_tail (s : string) : option (string * string) :=
  match s with
  | EmptyString => None
  | String c s' =>
      if Ascii.eqb c ":" then Some (EmptyString, s')
      else if is_alpha c || is_digit c || one_of "+-." c then
        match scheme_tail s' with
        | Some (sch, rest) => Some (String (to_lower c) sch, rest)
        | None => None
        end
      else None
  end.

Definition parse_scheme (s : string) : option (string * string) :=
  match s with
  | EmptyString => None
  | String c _ => if is_alpha c then scheme_tail s else None
  end.

(** Port state: digits only, at most 65535. *)
Definition port_value (s : string) : N :=
  (fix go (s : string) (acc : N) : N :=
     match s with
     | EmptyString => acc
     | String c s' => go s' (acc * 10 + N.of_nat (code c - 48))%N
     end) s 0%N.

Definition valid_port (s : string) : bool :=
  str_forall is_digit s && (port_value s <=? 65535)%N.

(** Host state and port state on the text after the credentials: the host
    text, when host and port are acceptable.  A bracketed host is kept as
    written (IP literals are outside the model, see [in_model]). *)
Definition split_host_port (hostport : string) : option string :=
  match hostport with
  | String "[" _ =>
      let (lit6, rest) := span (Ascii.eqb "]") hostport in
      match rest with
      | String _ EmptyString => Some (lit6 ++ "]")%string
      | String _ (String ":" port) => if valid_port port then Some (lit6 ++ "]")%string else None
      | _ => None
      end
  | _ =>
      let (host, rest) := span (Ascii.eqb ":") hostport in
      match rest with
      | EmptyString => Some host
      | String _ port =>
          if (host =? "") then None
          else if valid_port port then Some host else None
      end
  end.

(** The host parser for a special scheme (a domain): percent-decoding,
    lower case, and the forbidden code points.  The steps that follow in
    the platform's parser, for hosts with non-ASCII or punycode labels and
    for hosts that end in a number, are outside the model (see
    [in_model]). *)
Definition parse_domain (host : string) : option string :=
  let d := str_map to_lower (percent_decode host) in
  if (d =? "") then None
  else if str_forall (fun c => negb (forbidden_domain c)) d then Some d
  else None.

(** The host parser for the other schemes (an opaque host). *)
Definition parse_opaque_host (host : string) : option string :=
  if str_forall (fun c => negb (forbidden_host c)) host
  then Some (percent_encode_with c0_encode_set host)
  else None.

(** Authority state, host state and port state. *)
Definition parse_authority (special : bool) (auth : string) : option string :=
  let hostport :=
    match after_last_at auth with
    | Some r => r
    | None => auth
    end in
  match after_last_at auth, hostport with
  | Some _, EmptyString => None
  | _, _ =>
      match split_host_port hostport with
      | None => None
      | Some host =>
          if special then
            if (host =? "") then None
            else match host with
                 | String "[" _ => Some (str_map to_lower host)
                 | _ => parse_domain host
                 end
          else match host with
               | String "[" _ => Some (str_map to_lower host)
               | _ => parse_opaque_host host
               end
      end
  end.

Definition is_single_dot (seg : string) : bool :=
  existsb (String.eqb (str_map to_lower seg)) ["."; "%2e"].

Definition is_double_dot (seg : string) : bool :=
  existsb (String.eqb (str_map to_lower seg)) [".."; ".%2e"; "%2e."; "%2e%2e"].

(** Path state: the segments, first to last, are pushed on [acc] (which
    holds the path so far, last segment first). *)
Fixpoint path_segments (segs : list string) (acc : list string) : list string :=
  match segs with
  | [] => acc
  | seg :: rest =>
      let last := match rest with [] => true | _ => false end in
      if is_double_dot seg then
        path_segments rest (if last then EmptyString :: tl acc else tl acc)
      else if is_single_dot seg then
        path_segments rest (if last then EmptyString :: acc else acc)
      else path_segments rest (percent_encode_with path_encode_set seg :: acc)
  end.

(** The [pathname] getter of a URL whose path is a list of segments. *)
Definition serialize_path (segs : list string) : string :=
  fold_right (fun seg out => ("/" ++ seg ++ out)%string) EmptyString segs.

(** Path start state and path state, from the text that follows the
    authority to the end of the path. *)
Definition parse_path (special : bool) (text : string) : string :=
  let sep := if special then one_of "/\" else Ascii.eqb "/" in
  match text with
  | EmptyString => if special then "/" else EmptyString
  | String c text' =>
      let body := if sep c then text' else text in
      serialize_path (rev (path_segments (split_on sep body) []))
  end.

(** Cuts [text] into the part before the query or fragment, and the query
    (without its ["?"]) when there is one. *)
Definition cut_query (text : string) : string * string :=
  let (before, rest) := span (one_of "?#") text in
  match rest with
  | String "?" q => (before, fst (span (Ascii.eqb "#") q))
  | _ => (before, EmptyString)
  end.

(** What follows the scheme.  The [file] branch reads the host like that
    of a special scheme; [file:] URLs are outside the model (see
    [in_model]). *)
Definition parse_after_scheme (scheme rest : string) : option URL :=
  let (before, q) := cut_query rest in
  if is_special scheme then
    let (auth, path) := span (one_of "/\") (drop_while (one_of "/\") before) in
    match parse_authority true auth with
    | Some host => Some (mkURL (scheme ++ ":") host (parse_path true path) q)
    | None => None
    end
  else if (scheme =? "file") then
    match before with
    | String a (String b after) =>
        if one_of "/\" a && one_of "/\" b then
          let (auth, path) := span (one_of "/\") after in
          if (auth =? "") then Some (mkURL "file:" "" (parse_path true path) q)
          else match parse_authority true auth with
               | Some host => Some (mkURL "file:" host (parse_path true path) q)
               | None => None
               end
        else Some (mkURL "file:" "" (parse_path true before) q)
    | _ => Some (mkURL "file:" "" (parse_path true before) q)
    end
  else
    match before with
    | String "/" (String "/" after) =>
        let (auth, path) := span (Ascii.eqb "/") after in
        match parse_authority false auth with
        | Some host => Some (mkURL (scheme ++ ":") host (parse_path false path) q)
        | None => None
        end
    | String "/" _ => Some (mkURL (scheme ++ ":") "" (parse_path false before) q)
    | _ => Some (mkURL (scheme ++ ":") "" (percent_encode_with c0_encode_set before) q)
    end.

(** The input as the parser's state machine reads it: leading and trailing
    C0 controls and spaces stripped, tabs and newlines removed. *)
Definition normalize (text : string) : string :=
  str_filter (fun c => negb (is_tab_or_newline c)) (trim_right (trim_left text)).

(** [new URL(text)]: a [TypeError] when the text is not an absolute URL. *)
Definition URL_new (text : string) : completion URL :=
  match parse_scheme (normalize text) with
  | None => Throw InvalidURL
  | Some (scheme, rest) =>
      match parse_after_scheme scheme rest with
      | Some u => Normal u
      | None => Throw InvalidURL
      end
  end.

(** [searchParams]: the pairs of the query, in the
    application/x-www-form-urlencoded reading. *)
Definition plus_to_space (c : ascii) : ascii :=
  if Ascii.eqb c "+" then " "%char else c.

Definition parse_pair (piece : string) : string * string :=
  let (name, rest) := span (Ascii.eqb "=") piece in
  let value := match rest with String _ v => v | EmptyString => EmptyString end in
  (percent_decode (str_map plus_to_space name), percent_decode (str_map plus_to_space value)).

Definition searchParams (u : URL) : list (string * string) :=
  map parse_pair (filter (fun piece => negb (piece =? "")) (split_on (Ascii.eqb "&") (query u))).

(** [u.searchParams.get(name)] *)
Definition searchParams_get (u : URL) (name : string) : option string :=
  match find (fun kv => fst kv =? name) (searchParams u) with
  | Some kv => Some (snd kv)
  | None => None
  end.

(** [s.includes(needle)] *)
Fixpoint includes (needle s : string) : bool :=
  if prefix needle s then true
  else match s with
       | EmptyString => false
       | String _ s' => includes needle s'
       end.

(** [s.slice(1)] *)
Definition slice1 (s : string) : string :=
  match s with
  | EmptyString => EmptyString
  | String _ s' => s'
  end.

(** ** getVideoId *)

(** The identifier characters [[A-Za-z0-9_\-]]. *)
Definition ID_CLASS : list (ascii * ascii) :=
  [("A", "Z"); ("a", "z"); ("0", "9"); ("_", "_"); ("-", "-")]%char.

(** [/https?:\/\/(www\.)?(youtube\.com\/watch\?v=|youtu\.be\/)([A-Za-z0-9_\-]{6,})/i] *)
Definition YT_RE : regex :=
  Cat (lit "http")
  (Cat (Opt (Chr "s"))
  (Cat (lit "://")
  (Cat (Opt (Grp 1 (lit "www.")))
  (Cat (Grp 2 (Alt (lit "youtube.com/watch?v=") (lit "youtu.be/")))
       (Grp 3 (AtLeast 6 ID_CLASS)))))).

(** [url.match(YT_RE)] followed by [m ? m[3] : null]. *)
Definition match_group3 (text : string) : option string :=
  match exec true YT_RE text with
  | Some m => capture 3 m
  | None => None
  end.

(** The body of the [try] block. *)
Definition getVideoId_try (url : string) : completion (option string) :=
  match URL_new url with
  | Throw e => Throw e
  | Normal u =>
      if includes "youtu.be" (hostname u) then Normal (Some (slice1 (pathname u)))
      else if truthy (searchParams_get u "v") then Normal (searchParams_get u "v")
      else Normal (match_group3 url)
  end.

(** [try { ... } catch { return null; }] *)
Definition getVideoId (url : string) : completion (option string) :=
  match getVideoId_try url with
  | Normal v => Normal v
  | Throw _ => Normal None
  end.

(** ** Notions used to state the properties *)

(** The comparator [(a, b) => key(b) - key(a)]: descending order of the
    key. *)
Definition descending {A : Type} (key : A -> Z) (a b : A) : Z := (key b - key a)%Z.

(** The numbers the two comparators read off a descriptor. *)
Definition quality_of (s : StreamDescriptor) : Z := parseInt (nullish (quality s) 0).

Definition bitrate_of (s : StreamDescriptor) : Z := parseInt (num_or (bitrate s) 0).

(** [first_max key l x]: [x] occurs in [l] with the highest key, and every
    element before that occurrence has a strictly smaller key. *)
Inductive first_max {A : Type} (key : A -> Z) : list A -> A -> Prop :=
| first_max_at (pre post : list A) (x : A) :
    Forall (fun a => (key a < key x)%Z) pre ->
    Forall (fun a => (key a <= key x)%Z) post ->
    first_max key (pre ++ x :: post) x.

(** [needle] occurs in [s] up to the case of ASCII letters. *)
Definition ci_substring (needle s : string) : Prop :=
  exists pre mid post : string,
    s = (pre ++ mid ++ post)%string /\ str_map to_lower mid = str_map to_lower needle.



(** A probe counts as healthy when it is answered with a success status or
    with 404. *)
Definition probe_healthy {JSON : Type} (p : Promise (Response JSON)) : bool :=
  match outcome p with
  | Normal r => ok r || (status r =? 404)%Z
  | Throw _ => false
  end.

(** The HEAD request of iteration [i]. *)
Definition probe_request (endpoint : string) (idx : Z) (i : nat) : Request :=
  mkRequest HEAD (str_of (probe_base idx i) ++ endpoint).

(** The promises the loop of [chooseAPI] collects for the iterations [is],
    when the loop starts with the log [w]. *)
Fixpoint attempts_of {JSON : Type} (net : list Event -> Request -> Promise (Response JSON))
         (endpoint : string) (idx : Z) (ixs : list nat) (w : list Event)
  : list (Promise (option string)) :=
  match ixs with
  | [] => []
  | i :: ixs' =>
      p_catch (p_then (net w (probe_request endpoint idx i))
                      (probe_verdict (probe_base idx i)))
              (fun _ => None)
      :: attempts_of net endpoint idx ixs' (w ++ [Sent (probe_request endpoint idx i)])
  end.

(** The requests of one probe round, in the order they are sent. *)
Definition probe_round (endpoint : string) (idx : Z) : list Event :=
  map (fun i => Sent (probe_request endpoint idx i)) (seq 0 (List.length PIPED_APIS)).

(** The first mirror, in the order of the loop, whose probe is healthy. *)
Fixpoint first_healthy_in_order {JSON : Type}
         (net : list Event -> Request -> Promise (Response JSON))
         (endpoint : string) (idx : Z) (ixs : list nat) (w : list Event) : option string :=
  match ixs with
  | [] => None
  | i :: ixs' =>
      if probe_healthy (net w (probe_request endpoint idx i)) && truthy (probe_base idx i)
      then probe_base idx i
      else first_healthy_in_order net endpoint idx ixs' (w ++ [Sent (probe_request endpoint idx i)])
  end.


(** The data-model invariant of the two module-level variables: the cursor
    is a valid index, and a cached endpoint is the mirror under the
    cursor. *)
Definition consistent (g : Globals) : Prop :=
  (0 <= currentAPIIndex g < Z.of_nat (List.length PIPED_APIS))%Z
  /\ forall api, as_truthy (lastHealthyAPI g) = Some api ->
                 js_nth PIPED_APIS (currentAPIIndex g) = Some api.

(** The GET requests among the events of a log. *)
Definition is_get (e : Event) : bool :=
  match e with
  | Sent (mkRequest GET _) => true
  | _ => false
  end.

Definition get_count (w : list Event) : nat := List.length (filter is_get w).

(** A run of [chooseAPI] calls, one per endpoint of the list. *)
Fixpoint choose_many {JSON : Type} (net : list Event -> Request -> Promise (Response JSON))
         (endpoints : list string) (g : Globals) (w : list Event)
  : list (completion string) * Globals * list Event :=
  match endpoints with
  | [] => ([], g, w)
  | ep :: rest =>
      match chooseAPI net ep g w with
      | (r, g', w') =>
          match choose_many net rest g' w' with
          | (rs, g'', w'') => (r :: rs, g'', w'')
          end
      end
  end.

(** How a data request completes, given what its promise settles to. *)
Definition request_result {JSON : Type} (p : Promise (Response JSON)) : completion JSON :=
  match outcome p with
  | Throw e => Throw e
  | Normal r =>
      if ok r then
        match body r with
        | Some d => Normal d
        | None => Throw BodyRejected
        end
      else Throw (ApiError (status r))
  end.

(** The cursor after one rotation. *)
Definition next_index (idx : Z) : Z :=
  Z.rem (idx + 1) (Z.of_nat (List.length PIPED_APIS)).

(** An identifier as the specification understands it: a non-empty run of
    the characters [A-Z], [a-z], [0-9], [_] and [-]. *)
Definition id_char (c : ascii) : bool := in_ranges ID_CLASS c.


(** The text is empty or begins with a character of the class [d]. *)
Definition starts_with (d : ascii -> bool) (t : string) : bool :=
  match t with
  | EmptyString => true
  | String c _ => d c
  end.


(** The link prefixes [YT_RE] accepts before the identifier, in lower
    case. *)
Definition link_prefixes : list string :=
  [ "http://youtube.com/watch?v=";  "http://www.youtube.com/watch?v=";
    "https://youtube.com/watch?v="; "https://www.youtube.com/watch?v=";
    "http://youtu.be/";  "http://www.youtu.be/";
    "https://youtu.be/"; "https://www.youtu.be/" ].

Definition link_prefix (P : string) : Prop :=
  In (str_map to_lower P) link_prefixes.








(** ** Scenarios *)

(** A network on which every request is refused. *)
Definition dead_net : list Event -> Request -> Promise (Response unit) :=
  fun _ _ => mkPromise 3 (Throw FetchRejected).


(** A network on which every data request is answered with status 500 and
    every probe is refused. *)
Definition failing_net : list Event -> Request -> Promise (Response unit) :=
  fun _ rq =>
    match method rq with
    | GET => mkPromise 2 (Normal (mkResponse 500 None))
    | HEAD => mkPromise 2 (Throw FetchRejected)
    end.

(** A network on which only the second mirror of the list answers, with
    status 404 to probes and with a document to data requests. *)
Definition second_only_net : list Event -> Request -> Promise (Response unit) :=
  fun _ rq =>
    if prefix "https://pipedapi.adminforge.de" (target rq)
    then match method rq with
         | GET => mkPromise 4 (Normal (mkResponse 200 (Some tt)))
         | HEAD => mkPromise 4 (Normal (mkResponse 404 None))
         end
    else mkPromise 7 (Throw FetchRejected).

(** The page with the first mirror cached. *)
Definition first_cached : Globals := mkGlobals 0 (Some "https://pipedapi.kavin.rocks").

(** ** File names and durations *)

(** Where the script counts or cuts a string by position, the string is
    taken as its UTF-16 code units. *)
Definition jstext : Type := list N.

(** The code units of an ASCII literal. *)
Definition text_of (s : string) : jstext :=
  map (fun c => N.of_nat (nat_of_ascii c)) (list_ascii_of_string s).

(** The characters of the class that [sanitize] removes: backslash, slash,
    colon, asterisk, question mark, double quote, the two angle brackets
    and the vertical bar. *)
Definition RESERVED : list N := [92; 47; 58; 42; 63; 34; 60; 62; 124]%N.

Definition is_reserved (c : N) : bool := existsb (N.eqb c) RESERVED.

(** White space and line terminators, as [String.prototype.trim] knows
    them. *)
Definition js_whitespace (c : N) : bool :=
  existsb (N.eqb c)
          [9; 10; 11; 12; 13; 32; 160; 5760; 8232; 8233; 8239; 8287; 12288; 65279]%N
  || ((8192 <=? c) && (c <=? 8202))%N.

Fixpoint trim_start (s : jstext) : jstext :=
  match s with
  | [] => []
  | c :: s' => if js_whitespace c then trim_start s' else s
  end.

Fixpoint trim_end (s : jstext) : jstext :=
  match s with
  | [] => []
  | c :: s' =>
      match trim_end s' with
      | [] => if js_whitespace c then [] else [c]
      | t => c :: t
      end
  end.

(** [s.trim()] *)
Definition js_trim (s : jstext) : jstext := trim_end (trim_start s).

(** [a || b] on a string-or-null value and a string. *)
Definition text_or (a : option jstext) (b : jstext) : jstext :=
  match a with
  | Some (c :: t) => c :: t
  | _ => b
  end.

(** [(s || "file").replace(RESERVED, "").trim().slice(0, 120) || "file"],
    where the pattern is the reserved class with the [g] flag. *)
Definition sanitize (s : option jstext) : jstext :=
  text_or (Some (firstn 120 (js_trim (filter (fun c => negb (is_reserved c))
                                             (text_or s (text_of "file"))))))
          (text_of "file").

(** [String(n)] for a non-negative integer below 10^21. *)
Definition decimal (n : Z) : string :=
  DecimalString.NilEmpty.string_of_uint (N.to_uint (Z.to_N n)).

(** [s.padStart(2, "0")] *)
Definition pad2 (s : string) : string :=
  match String.length s with
  | 0%nat => "00"
  | 1%nat => String "0" s
  | _ => s
  end.

(** [human]: the argument is a safe integer or absent.
    [sec = Math.max(0, Number(sec) || 0)], then hours, minutes and seconds
    by [Math.floor] of quotients and by [%].  Up to [MAX_SAFE_INTEGER] the
    quotients of the script, computed in floating point, have the integer
    parts computed here, and the hours are rendered in plain decimal;
    beyond it they are not, and the properties of [human] are stated
    within that bound. *)
Definition human (sec : option Z) : string :=
  let sec := Z.max 0 (num_or sec 0) in
  let h := (sec / 3600)%Z in
  let m := (Z.rem sec 3600 / 60)%Z in
  let s := Z.rem sec 60 in
  ((if (h =? 0)%Z then "" else decimal h ++ ":")
     ++ pad2 (decimal m) ++ ":" ++ pad2 (decimal s))%string.

(** Reading a clock text back: the fields between colons are decimal
    numbers, the last two count minutes and seconds, one before them
    counts hours. *)
Definition read_decimal (s : string) : option Z :=
  match s with
  | EmptyString => None
  | _ =>
      match DecimalString.NilEmpty.uint_of_string s with
      | Some d => Some (Z.of_N (N.of_uint d))
      | None => None
      end
  end.

Definition read_clock (s : string) : option Z :=
  match map read_decimal (split_on (Ascii.eqb ":") s) with
  | [Some m; Some sec] => Some (60 * m + sec)%Z
  | [Some h; Some m; Some sec] => Some (3600 * h + 60 * m + sec)%Z
  | _ => None
  end.

(** The largest integer a JavaScript number holds exactly with all its
    predecessors. *)
Definition MAX_SAFE_INTEGER : Z := 9007199254740991.

(** A two-character field of decimal digits that reads as [k]. *)
Definition two_digits (k : Z) (f : string) : bool :=
  match f with
  | String a (String b EmptyString) =>
      is_digit a && is_digit b
      && match read_decimal f with
         | Some v => (v =? k)%Z
         | None => false
         end
  | _ => false
  end.

(** ** Notions used to state the properties of a whole call *)

(** The event is no request, or a request for [path] on a configured
    mirror. *)
Definition to_mirror (path : string) (e : Event) : Prop :=
  match e with
  | Sent rq => exists m, In m PIPED_APIS /\ target rq = (m ++ path)%string
  | _ => True
  end.

Definition is_sent (e : Event) : bool :=
  match e with
  | Sent _ => true
  | _ => false
  end.

Definition sent_count (w : list Event) : nat := List.length (filter is_sent w).

(** A run of [apiFetchJSON] calls, one per path of the list; the state
    each call leaves is the state the next one finds. *)
Fixpoint fetch_many {JSON : Type} (net : list Event -> Request -> Promise (Response JSON))
         (paths : list string) (g : Globals) (w : list Event) : Globals * list Event :=
  match paths with
  | [] => (g, w)
  | path :: rest =>
      match apiFetchJSON net path g w with
      | (_, g', w') => fetch_many net rest g' w'
      end
  end.

(** ** debounce

    [debounce(fn, ms)] keeps one variable, [t], and uses the timers of the
    event loop.  The loop is seen through the timers this debounced
    function has set: a timer waits with its due instant and the arguments
    its callback will pass to [fn]; it runs once, not before it is due,
    unless it is cleared first. *)

Section Debounce.

(** The arguments of one call, [...a]. *)
Variable Args : Type.

Record Timer : Type := mkTimer {
  timer_id : nat;
  due : nat;
  payload : Args
}.

Record Loop : Type := mkLoop {
  now : nat;                       (* the clock *)
  next_id : nat;                   (* the identifier the next timer gets *)
  pending : list Timer;            (* timers set and neither run nor cleared *)
  handle : option nat;             (* the variable [t]; [None] is [undefined] *)
  delivered : list (nat * Args)    (* the calls of [fn] so far, with their instants *)
}.

(** [clearTimeout(id)]: nothing happens for [undefined] or for an
    identifier that is not pending. *)
Definition clearTimeout (id : option nat) (L : Loop) : Loop :=
  match id with
  | None => L
  | Some i =>
      mkLoop (now L) (next_id L)
             (filter (fun tm => negb (Nat.eqb (timer_id tm) i)) (pending L))
             (handle L) (delivered L)
  end.

(** [setTimeout(() => fn(...a), ms)]: the new timer's identifier and the
    loop with the timer added. *)
Definition setTimeout (a : Args) (ms : nat) (L : Loop) : nat * Loop :=
  (next_id L,
   mkLoop (now L) (S (next_id L))
          (pending L ++ [mkTimer (next_id L) (now L + ms) a])
          (handle L) (delivered L)).

(** The function [debounce] returns, called with [a]:
    [clearTimeout(t); t = setTimeout(() => fn(...a), ms);] *)
Definition debounced (ms : nat) (a : Args) (L : Loop) : Loop :=
  let L1 := clearTimeout (handle L) L in
  let (id, L2) := setTimeout a ms L1 in
  mkLoop (now L2) (next_id L2) (pending L2) (Some id) (delivered L2).

(** What happens to the loop: the debounced function is called, or a
    pending timer runs. *)
Inductive Tick : Type :=
| Call (at_time : nat) (a : Args)
| Expire (at_time : nat) (id : nat).

Definition at_instant (L : Loop) (instant : nat) : Loop :=
  mkLoop instant (next_id L) (pending L) (handle L) (delivered L).

(** One step; [None] when the event cannot happen: the clock does not go
    back, and a timer runs only while it is pending and once it is due. *)
Definition tick (ms : nat) (L : Loop) (e : Tick) : option Loop :=
  match e with
  | Call instant a =>
      if (now L <=? instant)%nat then Some (debounced ms a (at_instant L instant))
      else None
  | Expire instant id =>
      if (now L <=? instant)%nat then
        match find (fun tm => Nat.eqb (timer_id tm) id) (pending L) with
        | Some tm =>
            if (due tm <=? instant)%nat then
              Some (mkLoop instant (next_id L)
                           (filter (fun x => negb (Nat.eqb (timer_id x) id)) (pending L))
                           (handle L)
                           (delivered L ++ [(instant, payload tm)]))
            else None
        | None => None
        end
      else None
  end.

Fixpoint ticks (ms : nat) (L : Loop) (events : list Tick) : option Loop :=
  match events with
  | [] => Some L
  | e :: rest =>
      match tick ms L e with
      | Some L' => ticks ms L' rest
      | None => None
      end
  end.

(** The loop when [debounce] has just returned. *)
Definition idle (first_id : nat) : Loop := mkLoop 0 first_id [] None [].

(** The calls of [fn] a history should lead to: one for each call of the
    debounced function that is directly followed by the expiry of a
    timer. *)
Fixpoint deliveries (events : list Tick) : list (nat * Args) :=
  match events with
  | [] => []
  | Call _ a :: rest =>
      match rest with
      | Expire instant _ :: _ => (instant, a) :: deliveries rest
      | _ => deliveries rest
      end
  | Expire _ _ :: rest => deliveries rest
  end.

(** The timer that should be waiting after a history: the one of the
    last call, if nothing happened since. *)
Definition awaited (ms : nat) (events : list Tick) : option (nat * Args) :=
  match rev events with
  | Call instant a :: _ => Some ((instant + ms)%nat, a)
  | _ => None
  end.

(** What holds of the loop after any history: the only timer that can be
    pending is the awaited one, and [fn] has been called as [deliveries]
    says. *)
Definition settled (ms : nat) (events : list Tick) (L : Loop) : Prop :=
  match awaited ms events with
  | Some (d, a) =>
      exists id, pending L = [mkTimer id d a] /\ handle L = Some id
  | None => pending L = []
  end
  /\ delivered L = deliveries events.

Definition is_call (e : Tick) : bool :=
  match e with
  | Call _ _ => true
  | Expire _ _ => false
  end.

End Debounce.

Arguments mkTimer {Args} timer_id due payload.
Arguments timer_id {Args} _.
Arguments due {Args} _.
Arguments payload {Args} _.
Arguments mkLoop {Args} now next_id pending handle delivered.
Arguments now {Args} _.
Arguments next_id {Args} _.
Arguments pending {Args} _.
Arguments handle {Args} _.
Arguments delivered {Args} _.
Arguments Call {Args} at_time a.
Arguments Expire {Args} at_time id.
Arguments idle {Args} first_id.
Arguments is_call {Args} e.

(** ** The converter and the progress row *)

(** The three properties of the progress row the script writes:
    [progressRow.hidden], [progressText.textContent] and
    [progressBar.style.width]. *)
Record Progress : Type := mkProgress {
  row_hidden : bool;
  progress_text : string;
  bar_width : string
}.

(** The progress row and the module-level flag [ffmpegReady]. *)
Record Page : Type := mkPage {
  progress : Progress;
  ffmpegReady : bool
}.

(** The awaited operations of the converter and of [fetchFile]; each may
    reject. *)
Inductive Step : Type :=
| Load                          (* [ffmpeg.load()] *)
| FetchFile (source : string)   (* [fetchFile(sourceUrl)] *)
| WriteFile (name : string)     (* [ffmpeg.writeFile(name, data)] *)
| Exec (args : list string)     (* [ffmpeg.exec(args)] *)
| ReadFile (name : string).     (* [ffmpeg.readFile(name)] *)

(** What the handler does to the outside, in program order. *)
Inductive Effect : Type :=
| Did (s : Step) (fulfilled : bool)   (* an awaited operation and how it settled *)
| NewFFmpeg                           (* [ffmpeg = new FFmpeg()] *)
| Download (name : jstext)            (* the blob, the anchor with its [download] name, the click *)
| RevokeLater (ms : nat)              (* [setTimeout(() => URL.revokeObjectURL(a.href), ms)] *)
| ConsoleError                        (* [console.error(e)] *)
| Alert (msg : string).               (* [alert(msg)] *)

Section Converter.

(** How each awaited operation settles, given what happened before it. *)
Variable ext : list Effect -> Step -> bool.

(** Computations over the page: [None] is an abrupt completion. *)
Definition C (A : Type) : Type := Page -> list Effect -> option A * Page * list Effect.

Definition andThen {A B : Type} (m : C A) (k : C B) : C B :=
  fun p w =>
    match m p w with
    | (Some _, p', w') => k p' w'
    | (None, p', w') => (None, p', w')
    end.

Definition emit (e : Effect) : C unit :=
  fun p w => (Some tt, p, w ++ [e]).

(** [await op]: the operation is tried, and throws when it rejects. *)
Definition awaited_step (s : Step) : C unit :=
  fun p w => (if ext w s then Some tt else None, p, w ++ [Did s (ext w s)]).

(** [try { m } catch (e) { h }] *)
Definition catching (m h : C unit) : C unit :=
  fun p w =>
    match m p w with
    | (Some a, p', w') => (Some a, p', w')
    | (None, p', w') => h p' w'
    end.

(** [... finally { f }], for a block [f] that completes normally. *)
Definition finally (m f : C unit) : C unit :=
  fun p w =>
    match m p w with
    | (r, p', w') =>
        match f p' w' with
        | (_, p'', w'') => (r, p'', w'')
        end
    end.

Definition setProgress (text : string) (pct : Z) : C unit :=
  fun p w =>
    (Some tt, mkPage (mkProgress false text (decimal pct ++ "%")) (ffmpegReady p), w).

Definition clearProgress : C unit :=
  fun p w => (Some tt, mkPage (mkProgress true "" "0%") (ffmpegReady p), w).

Definition set_ffmpegReady : C unit :=
  fun p w => (Some tt, mkPage (progress p) true, w).

Definition ensureFFmpeg : C unit :=
  fun p w =>
    if ffmpegReady p then (Some tt, p, w)
    else
      andThen (setProgress "Loading converter (~20–30 MB)…" 5)
      (andThen (emit NewFFmpeg)
      (andThen (awaited_step Load)
      (andThen set_ffmpegReady
               (setProgress "Converter ready." 15)))) p w.

(** The arguments of [ffmpeg.exec]. *)
Definition EXEC_ARGS : list string :=
  ["-i"; "in.webm"; "-vn"; "-ar"; "44100"; "-b:a"; "192k"; "-f"; "mp3"; "out.mp3"].

Definition downloadAsMp3 (sourceUrl : string) (baseName : jstext) : C unit :=
  andThen ensureFFmpeg
  (andThen (setProgress "Fetching audio…" 35)
  (andThen (awaited_step (FetchFile sourceUrl))
  (andThen (awaited_step (WriteFile "in.webm"))
  (andThen (setProgress "Converting to MP3…" 60)
  (andThen (awaited_step (Exec EXEC_ARGS))
  (andThen (setProgress "Preparing download…" 90)
  (andThen (awaited_step (ReadFile "out.mp3"))
  (andThen (emit (Download (sanitize (Some baseName) ++ text_of ".mp3")))
  (andThen (emit (RevokeLater 1500))
           (setProgress "Done!" 100)))))))))).

(** [bestAudio?.url] *)
Definition url_of (bestAudio : option StreamDescriptor) : option string :=
  match bestAudio with
  | Some d => url d
  | None => None
  end.

(** The handler [loadInfo] puts on the MP3 button; [bestAudio] and the
    title are the values it closes over. *)
Definition mp3_onclick (bestAudio : option StreamDescriptor) (title : option jstext) : C unit :=
  match as_truthy (url_of bestAudio) with
  | None => emit (Alert "No audio stream found.")
  | Some source =>
      finally
        (catching
           (downloadAsMp3 source (text_or title (text_of "audio")))
           (andThen (emit ConsoleError)
                    (emit (Alert "MP3 conversion failed or was blocked. Try again or switch API instance."))))
        clearProgress
  end.

(** Clicks made in turn: each one is made when the handler of the one
    before has run to its end, and finds the page as that handler left
    it.  (A click made while an earlier handler is still awaiting is not
    of this form.) *)
Fixpoint clicks_in_turn (cs : list (option StreamDescriptor * option jstext))
         (p : Page) (w : list Effect) : Page * list Effect :=
  match cs with
  | [] => (p, w)
  | (bestAudio, title) :: rest =>
      match mp3_onclick bestAudio title p w with
      | (_, p', w') => clicks_in_turn rest p' w'
      end
  end.

End Converter.

(** The events of a conversion in which every operation is fulfilled. *)
Definition conversion_steps (source : string) : list Effect :=
  [Did (FetchFile source) true; Did (WriteFile "in.webm") true;
   Did (Exec EXEC_ARGS) true; Did (ReadFile "out.mp3") true].

Definition is_load (e : Effect) : bool :=
  match e with
  | Did Load _ => true
  | _ => false
  end.

Definition is_download (e : Effect) : bool :=
  match e with
  | Download _ => true
  | _ => false
  end.

Definition is_alert (e : Effect) : bool :=
  match e with
  | Alert _ => true
  | _ => false
  end.

Definition is_failure (e : Effect) : bool :=
  match e with
  | Did _ false => true
  | _ => false
  end.

(** The progress row as [clearProgress] leaves it. *)
Definition cleared : Progress := mkProgress true "" "0%".

(** [loadInfo] builds the handler from the answer of the mirror:
    [bestAudio = pickBestAudio(data.audioStreams || [])], and the title is
    [data.title]. *)
Definition mp3_button (ext : list Effect -> Step -> bool)
           (audioStreams : option (list StreamDescriptor)) (title : option jstext) : C unit :=
  mp3_onclick ext (pickBestAudio (Some (or_empty audioStreams))) title.

(** An event that is a [fetchFile] fetches [source]. *)
Definition fetches_from (source : string) (e : Effect) : Prop :=
  match e with
  | Did (FetchFile u) _ => u = source
  | _ => True
  end.

(** Scenario: the converter loads and transcodes, but reading the result
    back is rejected. *)
Definition read_rejected (w : list Effect) (s : Step) : bool :=
  match s with
  | ReadFile _ => false
  | _ => true
  end.

Definition sample_audio : StreamDescriptor :=
  mkStream (Some "webm") (Some "audio/webm") None (Some 128%Z)
           (Some "https://cdn.example/a.webm").

(** ** The range of the embedding

    The two places where the embedding is exact on a part of the inputs
    only, and the notions in which the properties of the selectors are
    stated. *)

(** A safe integer: a number of this size is the same in the script and
    here, and so are its decimal rendering and what [parseInt] reads back
    from it. *)
Definition safe_integer (z : Z) : bool := (Z.abs z <=? MAX_SAFE_INTEGER)%Z.

(** The quality and the bitrate of a descriptor as the specification
    reads them: a missing one counts as 0. *)
Definition stated_quality (s : StreamDescriptor) : Z :=
  match quality s with
  | Some q => q
  | None => 0%Z
  end.

Definition stated_bitrate (s : StreamDescriptor) : Z :=
  match bitrate s with
  | Some b => b
  | None => 0%Z
  end.

(** The container or mime hint of a descriptor: its container, or its
    mime type when it has no container (an empty container is none). *)
Definition stated_hint (s : StreamDescriptor) : string :=
  let mime := match mimeType s with
              | Some m => m
              | None => EmptyString
              end in
  match container s with
  | Some c => if (c =? "") then mime else c
  | None => mime
  end.

(** The hint contains "mp4", in any letter case. *)
Definition mentions_mp4 (s : StreamDescriptor) : Prop :=
  ci_substring "mp4" (stated_hint s).

Definition safe_qualities (l : list StreamDescriptor) : bool :=
  forallb (fun s => safe_integer (stated_quality s)) l.

Definition safe_bitrates (l : list StreamDescriptor) : bool :=
  forallb (fun s => safe_integer (stated_bitrate s)) l.


(** The characters of an ordinary host name. *)
Definition host_char (c : ascii) : bool :=
  is_alpha c || is_digit c || one_of "-._" c.

Definition is_hex_digit (c : ascii) : bool :=
  match hex_value c with
  | Some _ => true
  | None => false
  end.

(** The last label of a host, a final empty label apart. *)
Definition last_label (host : string) : string :=
  match rev (split_on (Ascii.eqb ".") host) with
  | EmptyString :: l :: _ => l
  | l :: _ => l
  | [] => EmptyString
  end.

(** A label the platform reads as a number: decimal digits, or [0x]
    followed by hexadecimal digits. *)
Definition numeric_label (l : string) : bool :=
  (negb (l =? "") && str_forall is_digit l)
  || match l with
     | String "0" (String x rest) =>
         (Ascii.eqb x "x" || Ascii.eqb x "X") && str_forall is_hex_digit rest
     | _ => false
     end.

(** "Ends in a number": the platform then parses the host as an IPv4
    address. *)
Definition ends_in_a_number (host : string) : bool :=
  numeric_label (last_label host).

(** An ordinary host: letters, digits, hyphens, underscores and single
    dots between labels (one may end the host), no punycode label, and
    not ending in a number. *)
Definition plain_host (h : string) : bool :=
  str_forall host_char h
  && negb (prefix "." h) && negb (includes ".." h)
  && negb (includes "xn--" (str_map to_lower h))
  && negb (ends_in_a_number h).

(** The texts on which [URL_new] is the platform's parser: those without
    a scheme (not a URL, for the platform as for the model), and those
    whose scheme is not [file] and which the model either rejects or
    parses to a URL with an ordinary host. *)
Definition in_model (text : string) : bool :=
  match parse_scheme (normalize text) with
  | None => true
  | Some (scheme, _) =>
      negb (scheme =? "file")
      && match URL_new text with
         | Normal u => plain_host (hostname u)
         | Throw _ => true
         end
  end.


(** Scenario: two audio streams, the better one listed second. *)
Definition example_audios : list StreamDescriptor :=
  [mkStream (Some "m4a") (Some "audio/mp4") None (Some 64%Z) (Some "https://cdn.example/low.m4a");
   mkStream (Some "webm") (Some "audio/webm") None (Some 160%Z) (Some "https://cdn.example/high.webm")].

(** * Properties *)

(** ** Characters *)

Ltac ascii_cases c :=
  destruct c as [[] [] [] [] [] [] [] []]; vm_compute; try reflexivity; try discriminate; auto.

(** ** The sort *)

Section SortFacts.

Context {A : Type}.
Variable key : A -> Z.


Lemma insert_sorted_perm (x : A) (l : list A) :
  Permutation (insert_sorted (descending key) x l) (x :: l).
Proof.
  induction l as [|y t IH]; simpl.
  - apply Permutation_refl.
  - destruct ((descending key) x y <=? 0)%Z.
    + apply Permutation_refl.
    + eapply perm_trans; [apply perm_skip, IH | apply perm_swap].
Qed.

Lemma js_sort_perm (l : list A) : Permutation (js_sort (descending key) l) l.
Proof.
  induction l as [|x t IH]; simpl.
  - constructor.
  - eapply perm_trans; [apply insert_sorted_perm | apply perm_skip, IH].
Qed.

Lemma insert_sorted_sorted (x : A) (l : list A) :
  StronglySorted (fun a b => (key b <= key a)%Z) l ->
  StronglySorted (fun a b => (key b <= key a)%Z) (insert_sorted (descending key) x l).
Proof.
  induction 1 as [|y t Hs IH Hy]; simpl.
  - repeat constructor.
  - destruct ((descending key) x y <=? 0)%Z eqn:E; unfold descending in E.
    + apply Z.leb_le in E. constructor.
      * constructor; assumption.
      * constructor; [lia|].
        eapply Forall_impl; [|exact Hy]. simpl. intros; lia.
    + apply Z.leb_gt in E. constructor; [exact IH|].
      eapply Permutation_Forall.
      * apply Permutation_sym, insert_sorted_perm.
      * constructor; [lia | exact Hy].
Qed.

Lemma js_sort_sorted (l : list A) :
  StronglySorted (fun a b => (key b <= key a)%Z) (js_sort (descending key) l).
Proof.
  induction l as [|x t IH]; simpl.
  - constructor.
  - apply insert_sorted_sorted, IH.
Qed.

(** Stability: elements with the same key keep their relative order. *)
Lemma insert_sorted_stable (k : Z) (x : A) (l : list A) :
  StronglySorted (fun a b => (key b <= key a)%Z) l ->
  filter (fun a => (key a =? k)%Z) (insert_sorted (descending key) x l)
  = filter (fun a => (key a =? k)%Z) (x :: l).
Proof.
  induction 1 as [|y t Hs IH Hy]; [reflexivity|].
  cbn [insert_sorted].
  destruct ((descending key) x y <=? 0)%Z eqn:E; [reflexivity|].
  unfold descending in E. apply Z.leb_gt in E.
  cbn [filter] in *. rewrite IH.
  destruct (key x =? k)%Z eqn:Ex; [|reflexivity].
  destruct (key y =? k)%Z eqn:Ey; [|reflexivity].
  apply Z.eqb_eq in Ex, Ey. lia.
Qed.

Lemma js_sort_stable (k : Z) (l : list A) :
  filter (fun a => (key a =? k)%Z) (js_sort (descending key) l)
  = filter (fun a => (key a =? k)%Z) l.
Proof.
  induction l as [|x t IH]; [reflexivity|].
  cbn [js_sort]. rewrite insert_sorted_stable by apply js_sort_sorted.
  cbn [filter]. rewrite IH. reflexivity.
Qed.

Lemma insert_sorted_hd (x : A) (l : list A) :
  hd_error (insert_sorted (descending key) x l)
  = Some match l with
         | [] => x
         | y :: _ => if (key y <=? key x)%Z then x else y
         end.
Proof.
  destruct l as [|y t]; [reflexivity|].
  simpl. unfold descending.
  destruct (key y - key x <=? 0)%Z eqn:E1, (key y <=? key x)%Z eqn:E2;
    try reflexivity; exfalso;
    rewrite ?Z.leb_le, ?Z.leb_gt in E1, E2; lia.
Qed.

Lemma first_max_cons_keep (x y : A) (l : list A) :
  first_max key l y -> (key x < key y)%Z -> first_max key (x :: l) y.
Proof.
  intros H Hlt. destruct H as [pre post y Hpre Hpost].
  change (x :: pre ++ y :: post) with ((x :: pre) ++ y :: post).
  constructor; [constructor|]; assumption.
Qed.

Lemma first_max_cons_new (x y : A) (l : list A) :
  first_max key l y -> (key y <= key x)%Z -> first_max key (x :: l) x.
Proof.
  intros H Hle. destruct H as [pre post y Hpre Hpost].
  apply (first_max_at key [] (pre ++ y :: post) x); [constructor|].
  apply Forall_app; split.
  - eapply Forall_impl; [|exact Hpre]. simpl; intros; lia.
  - constructor; [exact Hle|].
    eapply Forall_impl; [|exact Hpost]. simpl; intros; lia.
Qed.

(** The head of the sorted array is the first occurrence of the highest
    key; the array is empty only when the input is. *)
Lemma js_sort_hd (l : list A) :
  match hd_error (js_sort (descending key) l) with
  | Some best => first_max key l best
  | None => l = []
  end.
Proof.
  induction l as [|x t IH]; [reflexivity|].
  cbn [js_sort]. rewrite insert_sorted_hd.
  destruct (js_sort (descending key) t) as [|y s'] eqn:E; cbn [hd_error] in IH.
  - subst t. apply (first_max_at key [] [] x); constructor.
  - destruct (key y <=? key x)%Z eqn:Ele.
    + apply Z.leb_le in Ele. eapply first_max_cons_new; eassumption.
    + apply Z.leb_gt in Ele. eapply first_max_cons_keep; eassumption.
Qed.


End SortFacts.

(** ** Regular expressions: searching *)

Lemma exec_found (ic : bool) (r : regex) (s : string) (c : captures) :
  exec ic r s = Some c ->
  exists pre rest : string, s = (pre ++ rest)%string /\ match_here ic r rest = Some c.
Proof.
  induction s as [|a s IH]; simpl; intros H.
  - destruct (match_here ic r "") eqn:E; [|discriminate].
    exists "", "". split; [reflexivity|congruence].
  - destruct (match_here ic r (String a s)) eqn:E.
    + exists "", (String a s). split; [reflexivity|congruence].
    + destruct (IH H) as (pre & rest & -> & Hm).
      exists (String a pre), rest. split; [reflexivity|exact Hm].
Qed.

Lemma exec_finds (ic : bool) (r : regex) (pre rest : string) :
  match_here ic r rest <> None -> exec ic r (pre ++ rest) <> None.
Proof.
  intros Hm. induction pre as [|a pre IH]; simpl.
  - destruct rest; simpl; destruct (match_here ic r _); congruence.
  - destruct (match_here ic r (String a (pre ++ rest))); [discriminate|exact IH].
Qed.

(** Under the [i] flag a character matches a pattern character exactly
    when both have the same lower-case form. *)
Lemma chr_match_lower (a c : ascii) :
  chr_match true a c = true <-> to_lower a = to_lower c.
Proof.
  unfold chr_match. rewrite Ascii.eqb_eq.
  split; intros H.
  - assert (Hl : forall x, to_lower (to_upper x) = to_lower x) by (intros x; ascii_cases x).
    rewrite <- (Hl a), <- (Hl c), H. reflexivity.
  - assert (Hu : forall x, to_upper (to_lower x) = to_upper x) by (intros x; ascii_cases x).
    rewrite <- (Hu a), <- (Hu c), H. reflexivity.
Qed.

(** [/mp4/i.test(h)] is a case-insensitive substring test. *)
Lemma test_mp4_iff (h : string) :
  test true MP4_RE h = true <-> ci_substring "mp4" h.
Proof.
  unfold test. split.
  - destruct (exec true MP4_RE h) as [c|] eqn:E; [intros _|discriminate].
    apply exec_found in E. destruct E as (pre & rest & -> & Hm).
    unfold match_here, MP4_RE in Hm. cbn [lit run] in Hm.
    destruct rest as [|a [|b [|d post]]]; try discriminate;
      try (destruct (chr_match true a "m"); discriminate);
      try (destruct (chr_match true a "m"); [destruct (chr_match true b "p")|]; discriminate).
    destruct (chr_match true a "m") eqn:Ea; [|discriminate].
    destruct (chr_match true b "p") eqn:Eb; [|discriminate].
    destruct (chr_match true d "4") eqn:Ed; [|discriminate].
    apply chr_match_lower in Ea, Eb, Ed.
    exists pre, (String a (String b (String d ""))), post. split; [reflexivity|].
    cbn [str_map]. rewrite Ea, Eb, Ed. reflexivity.
  - intros (pre & mid & post & -> & Hmid).
    destruct mid as [|a [|b [|d [|e mid]]]]; try discriminate.
    cbn [str_map] in Hmid.
    injection Hmid as Ha Hb Hd.
    assert (Hne : exec true MP4_RE (pre ++ String a (String b (String d post))) <> None).
    { apply exec_finds. unfold match_here, MP4_RE. cbn [lit run].
      rewrite (proj2 (chr_match_lower a "m") Ha).
      rewrite (proj2 (chr_match_lower b "p") Hb).
      rewrite (proj2 (chr_match_lower d "4") Hd). discriminate. }
    cbn [String.append] in *.
    destruct (exec true MP4_RE _); [reflexivity|congruence].
Qed.

(** ** Variant selector *)

(** Where [parseInt] gives the number back, the comparators of the two
    copies of the script are the same. *)
Lemma by_quality_legacy (a b : StreamDescriptor) :
  safe_integer (stated_quality a) = true ->
  safe_integer (stated_quality b) = true ->
  by_quality a b = Legacy.by_quality a b.
Proof. reflexivity. Qed.

(** On an array of descriptors with safe qualities, the selectors of the
    two copies of the script agree. *)
Lemma pickBestMp4_legacy (muxed : list StreamDescriptor) :
  safe_qualities muxed = true ->
  pickBestMp4 (Some muxed) = Legacy.pickBestMp4 muxed.
Proof. reflexivity. Qed.

Lemma pickBestAudio_legacy (audios : list StreamDescriptor) :
  pickBestAudio (Some audios) = Legacy.pickBestAudio audios.
Proof. reflexivity. Qed.

Lemma pickBestMp4_null : pickBestMp4 None = None.
Proof. reflexivity. Qed.

Lemma pickBestAudio_null : pickBestAudio None = None.
Proof. reflexivity. Qed.

(** ** The keys and the hint, as the specification reads them *)

Lemma quality_of_stated (s : StreamDescriptor) : quality_of s = stated_quality s.
Proof. unfold quality_of, stated_quality, parseInt, nullish. destruct (quality s); reflexivity. Qed.

Lemma bitrate_of_stated (s : StreamDescriptor) : bitrate_of s = stated_bitrate s.
Proof.
  unfold bitrate_of, stated_bitrate, parseInt, num_or.
  destruct (bitrate s) as [b|]; [|reflexivity].
  destruct (Z.eqb_spec b 0); congruence.
Qed.

Lemma container_hint_stated (s : StreamDescriptor) : container_hint s = stated_hint s.
Proof.
  assert (Hm : forall m : option string,
             match (if truthy m then m else Some "") with
             | Some h => h
             | None => ""
             end
             = match m with Some x => x | None => "" end).
  { intros [x|]; [|reflexivity]. cbn [truthy].
    destruct (x =? "") eqn:Ex; cbn [negb]; [|reflexivity].
    apply String.eqb_eq in Ex. subst x. reflexivity. }
  unfold container_hint, stated_hint, js_or.
  destruct (container s) as [c|]; cbn [truthy].
  - destruct (c =? "") eqn:Ec; cbn [negb].
    + apply Hm.
    + cbn [truthy]. rewrite Ec. reflexivity.
  - apply Hm.
Qed.

Lemma is_mp4_mentions (s : StreamDescriptor) : is_mp4 s = true <-> mentions_mp4 s.
Proof.
  unfold is_mp4, mentions_mp4. rewrite container_hint_stated. apply test_mp4_iff.
Qed.

Lemma first_max_ext {A : Type} (key key' : A -> Z) (l : list A) (x : A) :
  (forall a, key a = key' a) -> first_max key l x -> first_max key' l x.
Proof.
  intros Hk H. destruct H as [pre post x Hpre Hpost]. constructor.
  - eapply Forall_impl; [|exact Hpre]. cbv beta. intros a. rewrite !Hk. exact (fun h => h).
  - eapply Forall_impl; [|exact Hpost]. cbv beta. intros a. rewrite !Hk. exact (fun h => h).
Qed.






(** ** The probe round *)

Section ProbeRound.

Variable JSON : Type.
Variable net : list Event -> Request -> Promise (Response JSON).

Lemma for_each_probes (endpoint : string) (ixs : list nat) (g : Globals) (w : list Event) :
  for_each ixs (fun i =>
    bind read_currentAPIIndex (fun idx =>
    bind (fetch net (mkRequest HEAD (str_of (probe_base idx i) ++ endpoint))) (fun p =>
    ret (p_catch (p_then p (probe_verdict (probe_base idx i))) (fun _ => None))))) g w
  = (Normal (attempts_of net endpoint (currentAPIIndex g) ixs w), g,
     w ++ map (fun i => Sent (probe_request endpoint (currentAPIIndex g) i)) ixs).
Proof.
  revert w. induction ixs as [|i ixs IH]; intros w.
  - cbn. rewrite app_nil_r. reflexivity.
  - cbn [for_each]. unfold bind at 1. unfold bind at 1.
    unfold read_currentAPIIndex at 1. unfold bind at 1. unfold fetch at 1.
    unfold ret at 1. unfold bind at 1.
    fold (probe_request endpoint (currentAPIIndex g) i).
    rewrite IH. unfold ret. cbn [attempts_of map].
    rewrite <- app_assoc. reflexivity.
Qed.

Lemma probe_attempts_run (endpoint : string) (g : Globals) (w : list Event) :
  probe_attempts net endpoint g w
  = (Normal (attempts_of net endpoint (currentAPIIndex g) (seq 0 (List.length PIPED_APIS)) w),
     g, w ++ probe_round endpoint (currentAPIIndex g)).
Proof. unfold probe_attempts. apply for_each_probes. Qed.

Lemma outcome_then_catch {A B : Type} (p : Promise A) (f : A -> B) (h : Error -> B) :
  outcome (p_catch (p_then p f) h)
  = Normal match outcome p with
           | Normal a => f a
           | Throw e => h e
           end.
Proof. unfold p_catch, p_then. cbn [outcome]. destruct (outcome p); reflexivity. Qed.

(** Each attempt catches its own failure: none of them rejects. *)
Lemma attempts_fulfil (endpoint : string) (idx : Z) (ixs : list nat) (w : list Event) :
  Forall (fun p => exists v, outcome p = Normal v) (attempts_of net endpoint idx ixs w).
Proof.
  revert w. induction ixs as [|i ixs IH]; intros w; cbn [attempts_of]; constructor.
  - rewrite outcome_then_catch. eauto.
  - apply IH.
Qed.

Lemma first_rejection_none {A : Type} (ps : list (Promise A)) :
  Forall (fun p => exists v, outcome p = Normal v) ps -> first_rejection ps = None.
Proof.
  induction 1 as [|p ps [v Hv] _ IH]; [reflexivity|].
  cbn [first_rejection]. rewrite Hv, IH. reflexivity.
Qed.

Lemma fulfilled_values_length {A : Type} (ps : list (Promise A)) :
  Forall (fun p => exists v, outcome p = Normal v) ps ->
  List.length (fulfilled_values ps) = List.length ps.
Proof.
  induction 1 as [|p ps [v Hv] _ IH]; [reflexivity|].
  cbn [fulfilled_values]. rewrite Hv. cbn. rewrite IH. reflexivity.
Qed.

(** The batch never rejects, it settles when its last member settles, and
    its value lists the verdicts in the order of the loop. *)
Lemma promise_all_attempts (endpoint : string) (idx : Z) (ixs : list nat) (w : list Event) :
  promise_all (attempts_of net endpoint idx ixs w)
  = mkPromise (fold_right Nat.max 0%nat (map settled_at (attempts_of net endpoint idx ixs w)))
              (Normal (fulfilled_values (attempts_of net endpoint idx ixs w))).
Proof.
  unfold promise_all. rewrite first_rejection_none by apply attempts_fulfil. reflexivity.
Qed.

(** The value [results.find(Boolean)] reads off the batch is the first
    healthy mirror in the order of the loop. *)
Lemma find_truthy_attempts (endpoint : string) (idx : Z) (ixs : list nat) (w : list Event) :
  as_truthy (find_truthy (fulfilled_values (attempts_of net endpoint idx ixs w)))
  = first_healthy_in_order net endpoint idx ixs w.
Proof.
  revert w. induction ixs as [|i ixs IH]; intros w; [reflexivity|].
  cbn [attempts_of fulfilled_values first_healthy_in_order].
  rewrite outcome_then_catch. specialize (IH (w ++ [Sent (probe_request endpoint idx i)])).
  unfold probe_healthy, find_truthy in *. cbn [find].
  destruct (outcome (net w (probe_request endpoint idx i))) as [r|e].
  - unfold probe_verdict.
    destruct (ok r || (status r =? 404)%Z); cbn [andb truthy].
    + destruct (truthy (probe_base idx i)) eqn:Et.
      * unfold as_truthy. rewrite Et. reflexivity.
      * exact IH.
    + exact IH.
  - cbn [truthy andb]. exact IH.
Qed.

(** What [chooseAPI] does when nothing is cached. *)
Lemma chooseAPI_probing (endpoint : string) (g : Globals) (w : list Event) :
  as_truthy (lastHealthyAPI g) = None ->
  chooseAPI net endpoint g w
  = match first_healthy_in_order net endpoint (currentAPIIndex g)
                                 (seq 0 (List.length PIPED_APIS)) w with
    | None => (Throw AllOffline, g, w ++ probe_round endpoint (currentAPIIndex g))
    | Some healthy =>
        (Normal healthy,
         mkGlobals (indexOf PIPED_APIS healthy) (Some healthy),
         w ++ probe_round endpoint (currentAPIIndex g)
           ++ [SetLastHealthyAPI (Some healthy);
               SetCurrentAPIIndex (indexOf PIPED_APIS healthy)])
    end.
Proof.
  intros Hc. unfold chooseAPI.
  unfold bind at 1. unfold getCachedHealthy, bind, read_lastHealthyAPI, ret.
  rewrite Hc. rewrite probe_attempts_run.
  unfold await. rewrite promise_all_attempts. cbn [outcome].
  rewrite find_truthy_attempts.
  destruct (first_healthy_in_order _ _ _ _ _) as [h|]; [|reflexivity].
  unfold markHealthy, write_lastHealthyAPI, write_currentAPIIndex.
  cbn [lastHealthyAPI currentAPIIndex].
  rewrite <- !app_assoc. reflexivity.
Qed.

(** What [chooseAPI] does when an endpoint is cached: nothing but return
    it. *)
Lemma chooseAPI_cached (endpoint api : string) (g : Globals) (w : list Event) :
  as_truthy (lastHealthyAPI g) = Some api ->
  chooseAPI net endpoint g w = (Normal api, g, w).
Proof.
  intros Hc. unfold chooseAPI.
  unfold bind at 1. unfold getCachedHealthy, bind, read_lastHealthyAPI, ret.
  rewrite Hc. reflexivity.
Qed.

End ProbeRound.

(** ** Array lookups *)

Lemma indexOf_from_found (l : list string) (x : string) (k : Z) :
  In x l ->
  (k <= indexOf_from l x k < k + Z.of_nat (List.length l))%Z
  /\ nth_error l (Z.to_nat (indexOf_from l x k - k)) = Some x.
Proof.
  revert k. induction l as [|y t IH]; intros k Hin; [destruct Hin|].
  cbn [indexOf_from List.length].
  destruct (String.eqb_spec y x) as [->|Hne].
  - split; [lia|]. replace (k - k)%Z with 0%Z by lia. reflexivity.
  - destruct Hin as [Heq|Hin]; [congruence|].
    destruct (IH (k + 1)%Z Hin) as [Hr Hn]. split; [lia|].
    replace (Z.to_nat (indexOf_from t x (k + 1) - k))
      with (S (Z.to_nat (indexOf_from t x (k + 1) - (k + 1)))) by lia.
    exact Hn.
Qed.

Lemma indexOf_found (l : list string) (x : string) :
  In x l ->
  (0 <= indexOf l x < Z.of_nat (List.length l))%Z /\ js_nth l (indexOf l x) = Some x.
Proof.
  intros Hin. unfold indexOf, js_nth.
  destruct (indexOf_from_found l x 0 Hin) as [Hr Hn].
  split; [lia|].
  destruct (Z.ltb_spec (indexOf_from l x 0) 0); [lia|].
  rewrite Z.sub_0_r in Hn. exact Hn.
Qed.

Lemma js_nth_In (l : list string) (k : Z) (x : string) :
  js_nth l k = Some x -> In x l.
Proof.
  unfold js_nth. destruct (k <? 0)%Z; [discriminate|].
  apply nth_error_In.
Qed.

Lemma as_truthy_Some (v : option string) (s : string) :
  as_truthy v = Some s <-> v = Some s /\ s <> "".
Proof.
  unfold as_truthy, truthy. destruct v as [t|].
  - destruct (String.eqb_spec t ""); cbn; split.
    + discriminate.
    + intros [H1 Hne]. injection H1 as ->. contradiction.
    + intros H1. injection H1 as ->. auto.
    + intros [H _]. exact H.
  - split; [discriminate|]. intros [H _]. discriminate.
Qed.

Lemma as_truthy_None (v : option string) :
  as_truthy v = None <-> truthy v = false.
Proof.
  unfold as_truthy. destruct (truthy v) eqn:E.
  - destruct v; [|discriminate]. split; discriminate.
  - tauto.
Qed.

Lemma length_PIPED_APIS : List.length PIPED_APIS = 5%nat.
Proof. reflexivity. Qed.

Lemma NoDup_PIPED_APIS : NoDup PIPED_APIS.
Proof.
  unfold PIPED_APIS.
  repeat (constructor; [cbn; intuition discriminate|]). constructor.
Qed.

(** Moving the cursor by one lands on another mirror. *)
Lemma next_mirror_differs (idx : Z) :
  (0 <= idx < Z.of_nat (List.length PIPED_APIS))%Z ->
  (0 <= Z.rem (idx + 1) (Z.of_nat (List.length PIPED_APIS))
      < Z.of_nat (List.length PIPED_APIS))%Z
  /\ Z.rem (idx + 1) (Z.of_nat (List.length PIPED_APIS))
     = ((idx + 1) mod Z.of_nat (List.length PIPED_APIS))%Z
  /\ js_nth PIPED_APIS (Z.rem (idx + 1) (Z.of_nat (List.length PIPED_APIS)))
     <> js_nth PIPED_APIS idx.
Proof.
  rewrite length_PIPED_APIS. intros H.
  assert (Hc : (idx = 0 \/ idx = 1 \/ idx = 2 \/ idx = 3 \/ idx = 4)%Z) by lia.
  destruct Hc as [->|[->|[->|[->| ->]]]];
    (split; [vm_compute; split; [discriminate|reflexivity]
            |split; [reflexivity|vm_compute; discriminate]]).
Qed.

Lemma probe_base_0 (idx : Z) :
  (0 <= idx < Z.of_nat (List.length PIPED_APIS))%Z ->
  probe_base idx 0 = js_nth PIPED_APIS idx.
Proof.
  intros H. unfold probe_base. rewrite Z.add_0_r.
  rewrite Z.rem_small by lia. reflexivity.
Qed.

(** ** What one probe round returns *)

Section Resolution.

Variable JSON : Type.
Variable net : list Event -> Request -> Promise (Response JSON).

(** A mirror picked by the round is a configured mirror whose probe, sent
    in this round, was healthy. *)
Lemma first_healthy_in_order_Some (endpoint : string) (idx : Z) (ixs : list nat)
      (w : list Event) (api : string) :
  first_healthy_in_order net endpoint idx ixs w = Some api ->
  In api PIPED_APIS /\ api <> ""
  /\ exists i w', In i ixs /\ probe_base idx i = Some api
                  /\ probe_healthy (net w' (probe_request endpoint idx i)) = true.
Proof.
  revert w. induction ixs as [|i ixs IH]; intros w; cbn [first_healthy_in_order];
    [discriminate|].
  destruct (probe_healthy (net w (probe_request endpoint idx i))) eqn:Eh; cbn [andb].
  - destruct (truthy (probe_base idx i)) eqn:Et.
    + intros Hb.
      assert (Ha : as_truthy (probe_base idx i) = Some api).
      { unfold as_truthy. rewrite Et. exact Hb. }
      apply as_truthy_Some in Ha. destruct Ha as [_ Hne].
      split; [eapply js_nth_In; exact Hb|]. split; [exact Hne|].
      exists i, w. split; [left; reflexivity|]. split; assumption.
    + intros H. destruct (IH _ H) as (Hin & Hne & j & w' & Hj & Hrest).
      split; [exact Hin|]. split; [exact Hne|].
      exists j, w'. split; [right; exact Hj|exact Hrest].
  - intros H. destruct (IH _ H) as (Hin & Hne & j & w' & Hj & Hrest).
    split; [exact Hin|]. split; [exact Hne|].
    exists j, w'. split; [right; exact Hj|exact Hrest].
Qed.

(** When no configured mirror answers a probe healthily, the round picks
    nothing. *)
Lemma first_healthy_in_order_None (endpoint : string) (idx : Z) (ixs : list nat)
      (w : list Event) :
  (forall w' base, In base PIPED_APIS ->
                   probe_healthy (net w' (mkRequest HEAD (base ++ endpoint))) = false) ->
  first_healthy_in_order net endpoint idx ixs w = None.
Proof.
  intros Hall. revert w. induction ixs as [|i ixs IH]; intros w; [reflexivity|].
  cbn [first_healthy_in_order].
  destruct (probe_base idx i) as [b|] eqn:Eb.
  - unfold probe_request. rewrite Eb. cbn [str_of].
    rewrite Hall by (eapply js_nth_In; exact Eb). cbn [andb]. apply IH.
  - cbn [truthy]. rewrite andb_false_r. apply IH.
Qed.

Lemma probe_round_sent (endpoint : string) (idx : Z) (e : Event) :
  In e (probe_round endpoint idx) ->
  exists i, e = Sent (probe_request endpoint idx i).
Proof.
  unfold probe_round. rewrite in_map_iff. intros (i & <- & _). eauto.
Qed.

Lemma probe_round_length (endpoint : string) (idx : Z) :
  List.length (probe_round endpoint idx) = List.length PIPED_APIS.
Proof. unfold probe_round. rewrite length_map, length_seq. reflexivity. Qed.

Lemma probe_round_no_get (endpoint : string) (idx : Z) :
  filter is_get (probe_round endpoint idx) = [].
Proof.
  unfold probe_round. induction (seq 0 (List.length PIPED_APIS)) as [|i l IH];
    [reflexivity|]. cbn [map filter]. unfold probe_request at 1. cbn [is_get]. exact IH.
Qed.

End Resolution.

(** C3. When nothing is cached and no configured mirror answers its probe
    with a success or a 404, [chooseAPI] throws the "all instances offline"
    error; the two module-level variables are as they were, so the cache is
    still empty, and the only events of the call are the probes. *)
Theorem chooseAPI_all_offline (JSON : Type)
        (net : list Event -> Request -> Promise (Response JSON))
        (endpoint : string) (g : Globals) (w : list Event) :
  as_truthy (lastHealthyAPI g) = None ->
  (forall w' base, In base PIPED_APIS ->
                   probe_healthy (net w' (mkRequest HEAD (base ++ endpoint))) = false) ->
  chooseAPI net endpoint g w
  = (Throw AllOffline, g, w ++ probe_round endpoint (currentAPIIndex g))
  /\ getCachedHealthy g (w ++ probe_round endpoint (currentAPIIndex g))
     = (Normal None, g, w ++ probe_round endpoint (currentAPIIndex g))
  /\ forall v, ~ In (SetLastHealthyAPI v) (probe_round endpoint (currentAPIIndex g)).
Proof.
  intros Hc Hall. split; [|split].
  - rewrite chooseAPI_probing by exact Hc.
    rewrite first_healthy_in_order_None by exact Hall. reflexivity.
  - unfold getCachedHealthy, bind, read_lastHealthyAPI, ret. rewrite Hc. reflexivity.
  - intros v Hin. apply probe_round_sent in Hin. destruct Hin as [i Hi]. discriminate.
Qed.

Lemma chooseAPI_all_offline_witness :
  as_truthy (lastHealthyAPI initial) = None
  /\ chooseAPI dead_net "/api/v1/trending" initial []
     = (Throw AllOffline, initial, probe_round "/api/v1/trending" 0).
Proof.
  split; [reflexivity|].
  apply (chooseAPI_all_offline unit dead_net "/api/v1/trending" initial []).
  - reflexivity.
  - intros w' base _. reflexivity.
Defined.

(** C10. When [chooseAPI] returns a mirror after a probe round, that mirror
    is a configured one, it is cached, and the cursor is its index in the
    mirror list; the rotation that follows a failure then moves the cursor
    to the index after it, modulo the number of mirrors, and the next probe
    round starts at the mirror stored there. *)
Theorem chooseAPI_cursor_on_success (JSON : Type)
        (net : list Event -> Request -> Promise (Response JSON))
        (endpoint : string) (g : Globals) (w : list Event)
        (api : string) (g' : Globals) (w' : list Event) :
  as_truthy (lastHealthyAPI g) = None ->
  chooseAPI net endpoint g w = (Normal api, g', w') ->
  In api PIPED_APIS
  /\ currentAPIIndex g' = indexOf PIPED_APIS api
  /\ js_nth PIPED_APIS (currentAPIIndex g') = Some api
  /\ lastHealthyAPI g' = Some api
  /\ forall w2,
       let g2 := snd (fst (markUnhealthy g' w2)) in
       currentAPIIndex g2
       = ((indexOf PIPED_APIS api + 1) mod Z.of_nat (List.length PIPED_APIS))%Z
       /\ probe_base (currentAPIIndex g2) 0
          = js_nth PIPED_APIS
              ((indexOf PIPED_APIS api + 1) mod Z.of_nat (List.length PIPED_APIS))%Z.
Proof.
  intros Hc Hrun. rewrite chooseAPI_probing in Hrun by exact Hc.
  destruct (first_healthy_in_order net endpoint (currentAPIIndex g) _ w) as [h|] eqn:Eh;
    [|discriminate].
  injection Hrun as -> <- <-.
  apply first_healthy_in_order_Some in Eh. destruct Eh as (Hin & _ & _).
  destruct (indexOf_found PIPED_APIS api Hin) as [Hr Hn].
  cbn [currentAPIIndex lastHealthyAPI].
  repeat (split; [assumption || reflexivity|]).
  intros w2.
  unfold markUnhealthy, bind, write_lastHealthyAPI, read_currentAPIIndex,
    write_currentAPIIndex.
  cbn [fst snd currentAPIIndex lastHealthyAPI].
  destruct (next_mirror_differs (indexOf PIPED_APIS api) Hr) as (Hr2 & Hmod & _).
  split; [exact Hmod|].
  rewrite probe_base_0 by exact Hr2. rewrite Hmod. reflexivity.
Qed.

Lemma chooseAPI_cursor_on_success_witness :
  as_truthy (lastHealthyAPI initial) = None
  /\ chooseAPI second_only_net "/api/v1/trending" initial []
     = (Normal "https://pipedapi.adminforge.de",
        mkGlobals 1 (Some "https://pipedapi.adminforge.de"),
        probe_round "/api/v1/trending" 0
          ++ [SetLastHealthyAPI (Some "https://pipedapi.adminforge.de");
              SetCurrentAPIIndex 1])
  /\ currentAPIIndex (mkGlobals 1 (Some "https://pipedapi.adminforge.de"))
     = indexOf PIPED_APIS "https://pipedapi.adminforge.de".
Proof.
  assert (Hrun : chooseAPI second_only_net "/api/v1/trending" initial []
     = (Normal "https://pipedapi.adminforge.de",
        mkGlobals 1 (Some "https://pipedapi.adminforge.de"),
        probe_round "/api/v1/trending" 0
          ++ [SetLastHealthyAPI (Some "https://pipedapi.adminforge.de");
              SetCurrentAPIIndex 1])) by (vm_compute; reflexivity).
  split; [reflexivity|]. split; [exact Hrun|].
  exact (proj1 (proj2 (chooseAPI_cursor_on_success unit second_only_net
                         "/api/v1/trending" initial [] _ _ _ eq_refl Hrun))).
Defined.

(** ** The health cache *)

Lemma markUnhealthy_run (g : Globals) (w : list Event) :
  markUnhealthy g w
  = (Normal tt,
     mkGlobals (Z.rem (currentAPIIndex g + 1) (Z.of_nat (List.length PIPED_APIS))) None,
     w ++ [SetLastHealthyAPI None;
           SetCurrentAPIIndex (Z.rem (currentAPIIndex g + 1)
                                     (Z.of_nat (List.length PIPED_APIS)))]).
Proof.
  unfold markUnhealthy, bind, write_lastHealthyAPI, read_currentAPIIndex,
    write_currentAPIIndex.
  cbn [currentAPIIndex lastHealthyAPI]. rewrite <- app_assoc. reflexivity.
Qed.

Lemma choose_many_cached (JSON : Type)
      (net : list Event -> Request -> Promise (Response JSON))
      (endpoints : list string) (api : string) (g : Globals) (w : list Event) :
  as_truthy (lastHealthyAPI g) = Some api ->
  choose_many net endpoints g w = (map (fun _ => Normal api) endpoints, g, w).
Proof.
  intros Hc. induction endpoints as [|ep rest IH]; [reflexivity|].
  cbn [choose_many map]. rewrite (chooseAPI_cached JSON net ep api g w Hc), IH.
  reflexivity.
Qed.

(** C4. After [markHealthy(X)] the cache returns [X], and so does every
    later [chooseAPI] call, without a probe and without a change of state,
    for as long as [markUnhealthy] has not run.  After [markUnhealthy] the
    cache returns nothing and the cursor has advanced by one modulo the
    number of mirrors, so that the next probe round starts at another
    mirror than the one the cursor was on. *)
Theorem health_cache_machine (JSON : Type)
        (net : list Event -> Request -> Promise (Response JSON))
        (X : string) (g : Globals) (w : list Event) (endpoints : list string) :
  X <> "" ->
  (0 <= currentAPIIndex g < Z.of_nat (List.length PIPED_APIS))%Z ->
  let g1 := snd (fst (markHealthy X g w)) in
  let w1 := snd (markHealthy X g w) in
  let g2 := snd (fst (markUnhealthy g1 w1)) in
  let w2 := snd (markUnhealthy g1 w1) in
  getCachedHealthy g1 w1 = (Normal (Some X), g1, w1)
  /\ choose_many net endpoints g1 w1 = (map (fun _ => Normal X) endpoints, g1, w1)
  /\ getCachedHealthy g2 w2 = (Normal None, g2, w2)
  /\ currentAPIIndex g2
     = ((currentAPIIndex g1 + 1) mod Z.of_nat (List.length PIPED_APIS))%Z
  /\ (0 <= currentAPIIndex g2 < Z.of_nat (List.length PIPED_APIS))%Z
  /\ probe_base (currentAPIIndex g2) 0 <> probe_base (currentAPIIndex g1) 0
  /\ (js_nth PIPED_APIS (currentAPIIndex g1) = Some X ->
      probe_base (currentAPIIndex g2) 0 <> Some X).
Proof.
  intros HX Hidx g1 w1 g2 w2.
  assert (Hc : as_truthy (lastHealthyAPI g1) = Some X).
  { apply as_truthy_Some. split; [reflexivity|exact HX]. }
  assert (Hg1 : currentAPIIndex g1 = currentAPIIndex g) by reflexivity.
  assert (Hg2 : g2 = mkGlobals (Z.rem (currentAPIIndex g1 + 1)
                                      (Z.of_nat (List.length PIPED_APIS))) None).
  { unfold g2. rewrite markUnhealthy_run. reflexivity. }
  rewrite <- Hg1 in Hidx.
  destruct (next_mirror_differs (currentAPIIndex g1) Hidx) as (Hr & Hmod & Hne).
  split; [|split; [|split; [|split; [|split; [|split]]]]].
  - unfold getCachedHealthy, bind, read_lastHealthyAPI, ret. rewrite Hc. reflexivity.
  - apply choose_many_cached. exact Hc.
  - rewrite Hg2. reflexivity.
  - rewrite Hg2. cbn [currentAPIIndex]. exact Hmod.
  - rewrite Hg2. cbn [currentAPIIndex]. exact Hr.
  - rewrite Hg2. cbn [currentAPIIndex].
    rewrite !probe_base_0 by assumption. exact Hne.
  - intros HX1. rewrite Hg2. cbn [currentAPIIndex].
    rewrite probe_base_0 by assumption. rewrite <- HX1. exact Hne.
Qed.

Lemma health_cache_machine_witness :
  "https://pipedapi.nosebs.de" <> ""
  /\ (0 <= currentAPIIndex initial < Z.of_nat (List.length PIPED_APIS))%Z
  /\ choose_many dead_net ["/a"; "/b"]
       (snd (fst (markHealthy "https://pipedapi.nosebs.de" initial [])))
       (snd (markHealthy "https://pipedapi.nosebs.de" initial []))
     = ([Normal "https://pipedapi.nosebs.de"; Normal "https://pipedapi.nosebs.de"],
        snd (fst (markHealthy "https://pipedapi.nosebs.de" initial [])),
        snd (markHealthy "https://pipedapi.nosebs.de" initial [])).
Proof.
  assert (H1 : "https://pipedapi.nosebs.de" <> "") by discriminate.
  assert (H2 : (0 <= currentAPIIndex initial < Z.of_nat (List.length PIPED_APIS))%Z)
    by (vm_compute; split; [discriminate|reflexivity]).
  split; [exact H1|]. split; [exact H2|].
  exact (proj1 (proj2 (health_cache_machine unit dead_net "https://pipedapi.nosebs.de"
                         initial [] ["/a"; "/b"] H1 H2))).
Defined.

(** ** The probe round and time *)








(** ** apiFetchJSON *)

Section Retry.

Variable JSON : Type.
Variable net : list Event -> Request -> Promise (Response JSON).

Lemma request_json_run (base path : string) (g : Globals) (w : list Event) :
  request_json net base path g w
  = (request_result (net w (mkRequest GET (base ++ path))), g,
     w ++ [Sent (mkRequest GET (base ++ path))]).
Proof.
  unfold request_json, bind, fetch, await, request_result, json, throw, ret.
  destruct (outcome (net w (mkRequest GET (base ++ path)))) as [r|e]; [|reflexivity].
  destruct (ok r); cbn [negb]; [|reflexivity].
  destruct (body r); reflexivity.
Qed.

(** A first attempt that completes normally is the whole call. *)
Lemma apiFetchJSON_first_ok (path : string) (g : Globals) (w : list Event)
      (d : JSON) (g1 : Globals) (w1 : list Event) :
  first_attempt net path g w = (Normal d, g1, w1) ->
  apiFetchJSON net path g w = (Normal d, g1, w1).
Proof. intros H. unfold apiFetchJSON, try_catch. rewrite H. reflexivity. Qed.

(** A first attempt that fails hands over to the [catch] block. *)
Lemma apiFetchJSON_first_fails (path : string) (g : Globals) (w : list Event)
      (e : Error) (g1 : Globals) (w1 : list Event) :
  first_attempt net path g w = (Throw e, g1, w1) ->
  apiFetchJSON net path g w = second_attempt net path g1 w1.
Proof. intros H. unfold apiFetchJSON, try_catch. rewrite H. reflexivity. Qed.

Lemma second_attempt_run (path : string) (g1 : Globals) (w1 : list Event) :
  let idx2 := next_index (currentAPIIndex g1) in
  let cleared := w1 ++ [SetLastHealthyAPI None; SetCurrentAPIIndex idx2] in
  let probed := cleared ++ probe_round path idx2 in
  second_attempt net path g1 w1
  = match first_healthy_in_order net path idx2 (seq 0 (List.length PIPED_APIS)) cleared with
    | None => (Throw AllOffline, mkGlobals idx2 None, probed)
    | Some base2 =>
        let chosen := probed ++ [SetLastHealthyAPI (Some base2);
                                 SetCurrentAPIIndex (indexOf PIPED_APIS base2)] in
        (request_result (net chosen (mkRequest GET (base2 ++ path))),
         mkGlobals (indexOf PIPED_APIS base2) (Some base2),
         chosen ++ [Sent (mkRequest GET (base2 ++ path))])
    end.
Proof.
  intros idx2 cleared probed.
  unfold second_attempt. unfold bind at 1. rewrite markUnhealthy_run.
  fold (next_index (currentAPIIndex g1)). fold idx2. fold cleared.
  unfold bind at 1. rewrite chooseAPI_probing by reflexivity.
  cbn [currentAPIIndex]. fold probed.
  destruct (first_healthy_in_order net path idx2 _ cleared) as [base2|]; [|reflexivity].
  rewrite request_json_run. subst probed. cbv zeta.
  rewrite <- !app_assoc. reflexivity.
Qed.

End Retry.

(** C1. When the first attempt of [apiFetchJSON] fails, whatever the
    failure, the cached endpoint is cleared and the cursor advances by one
    modulo the number of mirrors; one probe round follows.  When the round
    finds a mirror, it is cached and the request is sent to it once, and
    the call completes as that one request does, failure included.  When
    the round finds no mirror, the call fails with the "all instances
    offline" error and no request is sent again.  In both cases nothing
    more happens. *)
Theorem apiFetchJSON_single_retry (JSON : Type)
        (net : list Event -> Request -> Promise (Response JSON))
        (path : string) (g : Globals) (w : list Event)
        (e : Error) (g1 : Globals) (w1 : list Event) :
  first_attempt net path g w = (Throw e, g1, w1) ->
  let idx2 := next_index (currentAPIIndex g1) in
  let cleared := w1 ++ [SetLastHealthyAPI None; SetCurrentAPIIndex idx2] in
  let probed := cleared ++ probe_round path idx2 in
  match first_healthy_in_order net path idx2 (seq 0 (List.length PIPED_APIS)) cleared with
  | None =>
      apiFetchJSON net path g w = (Throw AllOffline, mkGlobals idx2 None, probed)
      /\ get_count probed = get_count w1
  | Some base2 =>
      let chosen := probed ++ [SetLastHealthyAPI (Some base2);
                               SetCurrentAPIIndex (indexOf PIPED_APIS base2)] in
      apiFetchJSON net path g w
      = (request_result (net chosen (mkRequest GET (base2 ++ path))),
         mkGlobals (indexOf PIPED_APIS base2) (Some base2),
         chosen ++ [Sent (mkRequest GET (base2 ++ path))])
      /\ get_count (chosen ++ [Sent (mkRequest GET (base2 ++ path))]) = S (get_count w1)
      /\ In base2 PIPED_APIS
  end.
Proof.
  intros Hfirst idx2 cleared probed.
  rewrite (apiFetchJSON_first_fails JSON net path g w e g1 w1 Hfirst).
  pose proof (second_attempt_run JSON net path g1 w1) as Hrun.
  cbv zeta in Hrun. fold idx2 in Hrun. fold cleared in Hrun. fold probed in Hrun.
  assert (Hp : get_count probed = get_count w1).
  { unfold probed, cleared, get_count.
    rewrite !filter_app, probe_round_no_get. cbn [filter is_get].
    rewrite !app_nil_r. reflexivity. }
  destruct (first_healthy_in_order net path idx2 _ cleared) as [base2|] eqn:Eh.
  - split; [exact Hrun|]. split.
    + unfold get_count in *. rewrite !filter_app. cbn [filter is_get].
      rewrite app_nil_r, length_app, Hp. cbn. lia.
    + apply first_healthy_in_order_Some in Eh. tauto.
  - split; [exact Hrun|exact Hp].
Qed.

Lemma apiFetchJSON_single_retry_witness :
  first_attempt second_only_net "/api/v1/streams/abcdef" first_cached []
  = (Throw FetchRejected, first_cached,
     [Sent (mkRequest GET "https://pipedapi.kavin.rocks/api/v1/streams/abcdef")])
  /\ fst (fst (apiFetchJSON second_only_net "/api/v1/streams/abcdef" first_cached []))
     = Normal tt.
Proof.
  assert (Hfirst :
    first_attempt second_only_net "/api/v1/streams/abcdef" first_cached []
    = (Throw FetchRejected, first_cached,
       [Sent (mkRequest GET "https://pipedapi.kavin.rocks/api/v1/streams/abcdef")]))
    by (vm_compute; reflexivity).
  split; [exact Hfirst|].
  pose proof (apiFetchJSON_single_retry unit second_only_net "/api/v1/streams/abcdef"
                first_cached [] _ _ _ Hfirst) as H.
  cbv zeta in H.
  assert (Eh : first_healthy_in_order second_only_net "/api/v1/streams/abcdef"
                 (next_index (currentAPIIndex first_cached))
                 (seq 0 (List.length PIPED_APIS))
                 ([Sent (mkRequest GET "https://pipedapi.kavin.rocks/api/v1/streams/abcdef")]
                    ++ [SetLastHealthyAPI None;
                        SetCurrentAPIIndex (next_index (currentAPIIndex first_cached))])
               = Some "https://pipedapi.adminforge.de") by (vm_compute; reflexivity).
  rewrite Eh in H. destruct H as [H _]. rewrite H. reflexivity.
Defined.

(** The request is not always sent a second time: the cached mirror
    answers 500, every probe of the following round is refused, and the
    call ends without another data request. *)
Lemma apiFetchJSON_retry_not_sent :
  ~ (forall (net : list Event -> Request -> Promise (Response unit))
            (path : string) (g : Globals) (w : list Event)
            (base : string) (g0 : Globals) (w0 : list Event)
            (status : Z) (g1 : Globals) (w1 : list Event),
        chooseAPI net path g w = (Normal base, g0, w0) ->
        request_json net base path g0 w0 = (Throw (ApiError status), g1, w1) ->
        exists events,
          snd (apiFetchJSON net path g w) = w1 ++ events /\ get_count events = 1%nat).
Proof.
  intros H.
  destruct (H failing_net "/api/v1/streams/abcdef" first_cached []
              "https://pipedapi.kavin.rocks" first_cached [] 500%Z first_cached
              [Sent (mkRequest GET "https://pipedapi.kavin.rocks/api/v1/streams/abcdef")])
    as (events & Hlog & Hcount).
  - reflexivity.
  - vm_compute. reflexivity.
  - assert (Hrun : snd (apiFetchJSON failing_net "/api/v1/streams/abcdef" first_cached [])
                   = [Sent (mkRequest GET "https://pipedapi.kavin.rocks/api/v1/streams/abcdef")]
                       ++ [SetLastHealthyAPI None; SetCurrentAPIIndex 1]
                       ++ probe_round "/api/v1/streams/abcdef" 1)
      by (vm_compute; reflexivity).
    rewrite Hrun in Hlog. apply app_inv_head in Hlog. subst events.
    vm_compute in Hcount. discriminate.
Qed.

(** ** Strings *)


Lemma str_app_assoc (a b c : string) : ((a ++ b) ++ c)%string = (a ++ b ++ c)%string.
Proof. induction a as [|x a IH]; cbn; [|rewrite IH]; reflexivity. Qed.

Lemma str_app_length (a b : string) :
  String.length (a ++ b) = (String.length a + String.length b)%nat.
Proof. induction a as [|x a IH]; cbn; [|rewrite IH]; reflexivity. Qed.


Lemma str_forall_impl (p q : ascii -> bool) (s : string) :
  (forall c, p c = true -> q c = true) ->
  str_forall p s = true -> str_forall q s = true.
Proof.
  intros Hpq. induction s as [|c s IH]; cbn; [reflexivity|].
  rewrite !andb_true_iff. intros [Hc Hs]. split; [apply Hpq, Hc|apply IH, Hs].
Qed.





(** *** Trimming *)


Lemma trim_right_spaces (ws : string) :
  str_forall is_c0_or_space ws = true -> trim_right ws = "".
Proof.
  induction ws as [|c ws IH]; cbn; [reflexivity|].
  rewrite andb_true_iff. intros [Hc Hs]. rewrite IH, Hc by exact Hs. reflexivity.
Qed.

Lemma trim_right_app_spaces (s ws : string) :
  str_forall is_c0_or_space ws = true -> trim_right (s ++ ws) = trim_right s.
Proof.
  intros Hws. induction s as [|c s IH]; cbn [String.append trim_right].
  - apply trim_right_spaces, Hws.
  - rewrite IH. reflexivity.
Qed.




(** *** Cutting *)








(** *** Identifier characters *)




Lemma cls_match_id (c : ascii) :
  cls_match true ID_CLASS c = id_char c.
Proof. unfold id_char. ascii_cases c. Qed.

(** ** The URL constructor on the two link forms *)












Lemma split_on_cons (delim : ascii -> bool) (a : string) (d : ascii) (b : string) :
  str_forall (fun c => negb (delim c)) a = true -> delim d = true ->
  split_on delim (a ++ String d b) = a :: split_on delim b.
Proof.
  intros Ha Hd. induction a as [|c a IH]; cbn [String.append split_on].
  - rewrite Hd. reflexivity.
  - cbn [str_forall] in Ha. rewrite andb_true_iff, negb_true_iff in Ha.
    destruct Ha as [Hc Ha]. rewrite Hc, IH by exact Ha. reflexivity.
Qed.








(** ** getVideoId *)



Lemma getVideoId_short_host (url : string) (u : URL) :
  URL_new url = Normal u ->
  includes "youtu.be" (hostname u) = true ->
  getVideoId url = Normal (Some (slice1 (pathname u))).
Proof. intros H Hh. unfold getVideoId, getVideoId_try. rewrite H, Hh. reflexivity. Qed.








(** ** The fallback pattern *)

Lemma str_map_app (f : ascii -> ascii) (a b : string) :
  str_map f (a ++ b) = (str_map f a ++ str_map f b)%string.
Proof. induction a as [|c a IH]; cbn; [|rewrite IH]; reflexivity. Qed.

Lemma str_map_length (f : ascii -> ascii) (a : string) :
  String.length (str_map f a) = String.length a.
Proof. induction a as [|c a IH]; cbn; [|rewrite IH]; reflexivity. Qed.


Lemma span_eq (stop : ascii -> bool) (s : string) :
  s = (fst (span stop s) ++ snd (span stop s))%string.
Proof.
  induction s as [|c s IH]; [reflexivity|].
  cbn [span]. destruct (stop c); [reflexivity|].
  destruct (span stop s) as [a b]. cbn in *. rewrite <- IH. reflexivity.
Qed.

Lemma span_fst_solid (stop : ascii -> bool) (s : string) :
  str_forall (fun c => negb (stop c)) (fst (span stop s)) = true.
Proof.
  induction s as [|c s IH]; [reflexivity|].
  cbn [span]. destruct (stop c) eqn:E; [reflexivity|].
  destruct (span stop s) as [a b]. cbn in *. rewrite E, IH. reflexivity.
Qed.

Lemma span_snd_starts (stop : ascii -> bool) (s : string) :
  starts_with stop (snd (span stop s)) = true.
Proof.
  induction s as [|c s IH]; [reflexivity|].
  cbn [span]. destruct (stop c) eqn:E; [exact E|].
  destruct (span stop s) as [a b]. exact IH.
Qed.

Lemma consumed_app (a b : string) : consumed (a ++ b) b = a.
Proof.
  unfold consumed. rewrite str_app_length.
  replace (String.length a + String.length b - String.length b)%nat
    with (String.length a) by lia.
  induction a as [|c a IH]; cbn.
  - destruct b; reflexivity.
  - rewrite IH. reflexivity.
Qed.

(** A literal matches, letter case apart, exactly a text of the same
    lower-case form. *)
Lemma run_lit_inv (p s : string) (cs : captures)
      (k : string -> captures -> option captures) (r : captures) :
  run true (lit p) s cs k = Some r ->
  exists a s', s = (a ++ s')%string
               /\ str_map to_lower a = str_map to_lower p /\ k s' cs = Some r.
Proof.
  revert s. induction p as [|c p IH]; intros s H; cbn [lit run] in H.
  - exists "", s. auto.
  - destruct s as [|a s]; [discriminate|].
    destruct (chr_match true a c) eqn:E; [|discriminate].
    apply chr_match_lower in E.
    destruct (IH s H) as (a' & s' & -> & Ha & Hk).
    exists (String a a'), s'. cbn. rewrite E, Ha. auto.
Qed.


(** The greedy class repetition, followed by a pattern that cannot fail,
    takes the whole run of class characters. *)
Lemma rep_greedy (n : nat) (s : string) (f : string -> captures) :
  rep true ID_CLASS n s (fun s' => Some (f s'))
  = if (n <=? String.length (fst (span (fun c => negb (id_char c)) s)))%nat
    then Some (f (snd (span (fun c => negb (id_char c)) s)))
    else None.
Proof.
  revert n. induction s as [|c s IH]; intros n.
  - cbn. destruct n; reflexivity.
  - cbn [rep span]. rewrite cls_match_id.
    destruct (id_char c) eqn:E; cbn [negb].
    + rewrite IH. destruct (span (fun c0 => negb (id_char c0)) s) as [a b].
      cbn [fst snd String.length].
      destruct n as [|n]; [reflexivity|].
      cbn [Nat.pred Nat.eqb]. cbn [Nat.leb].
      destruct (n <=? String.length a)%nat; reflexivity.
    + cbn [fst snd String.length]. destruct n; reflexivity.
Qed.

(** The last group of [YT_RE], from the position [s]. *)
Lemma run_id_group (s : string) (cs : captures) :
  run true (Grp 3 (AtLeast 6 ID_CLASS)) s cs (fun _ c => Some c)
  = if (6 <=? String.length (fst (span (fun c => negb (id_char c)) s)))%nat
    then Some ((3%nat, fst (span (fun c => negb (id_char c)) s)) :: cs)
    else None.
Proof.
  cbn [run].
  rewrite (rep_greedy 6 s (fun s' => (3%nat, consumed s s') :: cs)).
  destruct (6 <=? _)%nat; [|reflexivity].
  rewrite (span_eq (fun c => negb (id_char c)) s) at 1.
  rewrite consumed_app. reflexivity.
Qed.


Lemma run_Cat (r1 r2 : regex) (s : string) (cs : captures)
      (k : string -> captures -> option captures) :
  run true (Cat r1 r2) s cs k = run true r1 s cs (fun s1 c1 => run true r2 s1 c1 k).
Proof. reflexivity. Qed.

Lemma run_Grp (j : nat) (r1 : regex) (s : string) (cs : captures)
      (k : string -> captures -> option captures) :
  run true (Grp j r1) s cs k
  = run true r1 s cs (fun s1 c1 => k s1 ((j, consumed s s1) :: c1)).
Proof. reflexivity. Qed.

Lemma run_Opt_inv (r1 : regex) (s : string) (cs : captures)
      (k : string -> captures -> option captures) (r : captures) :
  run true (Opt r1) s cs k = Some r ->
  run true r1 s cs k = Some r \/ k s cs = Some r.
Proof.
  cbn [run]. destruct (run true r1 s cs k); [intros [= ->]; left; reflexivity|auto].
Qed.

Lemma run_Alt_inv (r1 r2 : regex) (s : string) (cs : captures)
      (k : string -> captures -> option captures) (r : captures) :
  run true (Alt r1 r2) s cs k = Some r ->
  run true r1 s cs k = Some r \/ run true r2 s cs k = Some r.
Proof.
  cbn [run]. destruct (run true r1 s cs k); [intros [= ->]; left; reflexivity|auto].
Qed.

Lemma run_Chr_inv (c : ascii) (s : string) (cs : captures)
      (k : string -> captures -> option captures) (r : captures) :
  run true (Chr c) s cs k = Some r ->
  exists a s', s = String a s' /\ to_lower a = to_lower c /\ k s' cs = Some r.
Proof.
  cbn [run]. destruct s as [|a s']; [discriminate|].
  destruct (chr_match true a c) eqn:E; [|discriminate].
  apply chr_match_lower in E. eauto.
Qed.

(** What a match of [YT_RE] at the start of [s] consists of: a link prefix
    in any letter case, then the whole run of identifier characters that
    follows it, at least six of them, which is the third capture. *)
Lemma match_here_YT_inv (s : string) (r : captures) :
  match_here true YT_RE s = Some r ->
  exists P tail,
    s = (P ++ tail)%string /\ link_prefix P
    /\ (6 <= String.length (fst (span (fun c => negb (id_char c)) tail)))%nat
    /\ capture 3 r = Some (fst (span (fun c => negb (id_char c)) tail)).
Proof.
  unfold match_here, YT_RE. intros H.
  rewrite run_Cat in H. apply run_lit_inv in H.
  destruct H as (a1 & s1 & -> & Ha1 & H).
  rewrite run_Cat in H.
  assert (H2 : exists os s2, s1 = (os ++ s2)%string
             /\ (os = "" \/ str_map to_lower os = "s")
             /\ run true (Cat (lit "://")
                   (Cat (Opt (Grp 1 (lit "www.")))
                   (Cat (Grp 2 (Alt (lit "youtube.com/watch?v=") (lit "youtu.be/")))
                        (Grp 3 (AtLeast 6 ID_CLASS))))) s2 [] (fun _ c => Some c) = Some r).
  { apply run_Opt_inv in H. destruct H as [H|H].
    - apply run_Chr_inv in H. destruct H as (x & s2 & -> & Hx & H).
      exists (String x ""), s2. split; [reflexivity|]. split; [|exact H].
      right. cbn. rewrite Hx. reflexivity.
    - exists "", s1. auto. }
  clear H. destruct H2 as (os & s2 & -> & Hos & H).
  rewrite run_Cat in H. apply run_lit_inv in H.
  destruct H as (a3 & s3 & -> & Ha3 & H).
  rewrite run_Cat in H.
  assert (H4 : exists ow s4 cs4, s3 = (ow ++ s4)%string
             /\ (ow = "" \/ str_map to_lower ow = "www.")
             /\ run true (Cat (Grp 2 (Alt (lit "youtube.com/watch?v=") (lit "youtu.be/")))
                              (Grp 3 (AtLeast 6 ID_CLASS))) s4 cs4 (fun _ c => Some c)
                = Some r).
  { apply run_Opt_inv in H. destruct H as [H|H].
    - rewrite run_Grp in H. apply run_lit_inv in H.
      destruct H as (ow & s4 & -> & How & H). eauto 8.
    - exists "", s3, []. auto. }
  clear H. destruct H4 as (ow & s4 & cs4 & -> & How & H).
  rewrite run_Cat, run_Grp in H.
  assert (H5 : exists a5 s5 cs5, s4 = (a5 ++ s5)%string
             /\ (str_map to_lower a5 = "youtube.com/watch?v="
                 \/ str_map to_lower a5 = "youtu.be/")
             /\ run true (Grp 3 (AtLeast 6 ID_CLASS)) s5 cs5 (fun _ c => Some c) = Some r).
  { apply run_Alt_inv in H. destruct H as [H|H]; apply run_lit_inv in H;
      destruct H as (a5 & s5 & -> & Ha5 & H); eauto 8. }
  clear H. destruct H5 as (a5 & s5 & cs5 & -> & Ha5 & H).
  rewrite run_id_group in H.
  destruct (6 <=? String.length (fst (span (fun c => negb (id_char c)) s5)))%nat eqn:E6;
    [|discriminate].
  injection H as <-. apply Nat.leb_le in E6.
  exists (a1 ++ os ++ a3 ++ ow ++ a5)%string, s5.
  split; [rewrite !str_app_assoc; reflexivity|].
  split; [|split; [exact E6|reflexivity]].
  unfold link_prefix. rewrite !str_map_app, Ha1, Ha3.
  destruct Hos as [-> | ->], How as [-> | ->], Ha5 as [-> | ->];
    cbn; auto 10.
Qed.








(** The fallback scan returns only identifiers of at least six URL-safe
    characters that stand right after a watch or short link in the text. *)
Lemma match_group3_sound (text id : string) :
  match_group3 text = Some id ->
  exists pre P rest,
    text = (pre ++ P ++ id ++ rest)%string /\ link_prefix P
    /\ (6 <= String.length id)%nat /\ str_forall id_char id = true
    /\ starts_with (fun c => negb (id_char c)) rest = true.
Proof.
  unfold match_group3. destruct (exec true YT_RE text) as [m|] eqn:E; [|discriminate].
  intros Hcap. apply exec_found in E. destruct E as (pre & s & -> & Hm).
  apply match_here_YT_inv in Hm. destruct Hm as (P & tail & -> & HP & H6 & Hc).
  rewrite Hcap in Hc. injection Hc as ->.
  exists pre, P, (snd (span (fun c => negb (id_char c)) tail)).
  split; [rewrite <- span_eq; reflexivity|].
  split; [exact HP|]. split; [exact H6|]. split.
  - pose proof (span_fst_solid (fun c => negb (id_char c)) tail) as Hs.
    eapply str_forall_impl; [|exact Hs]. intros c Hcc.
    cbv beta in Hcc. rewrite negb_involutive in Hcc. exact Hcc.
  - apply span_snd_starts.
Qed.



(** ** The identifier extractor: the properties of the specification *)











(** ** The data-model invariant *)

Lemma consistent_initial : consistent initial.
Proof.
  split; [vm_compute; split; [discriminate|reflexivity]|].
  intros api H. discriminate H.
Qed.

(** [chooseAPI] keeps the cursor valid and the cache in step with it. *)
Lemma chooseAPI_consistent (JSON : Type)
      (net : list Event -> Request -> Promise (Response JSON))
      (endpoint : string) (g : Globals) (w : list Event) :
  consistent g -> consistent (snd (fst (chooseAPI net endpoint g w))).
Proof.
  intros Hg. destruct (as_truthy (lastHealthyAPI g)) as [api|] eqn:Ec.
  - rewrite (chooseAPI_cached JSON net endpoint api g w Ec). exact Hg.
  - rewrite chooseAPI_probing by exact Ec.
    destruct (first_healthy_in_order net endpoint (currentAPIIndex g) _ w) as [h|] eqn:Eh;
      [|exact Hg].
    apply first_healthy_in_order_Some in Eh. destruct Eh as (Hin & Hne & _).
    destruct (indexOf_found PIPED_APIS h Hin) as [Hr Hn].
    split; cbn [fst snd currentAPIIndex lastHealthyAPI]; [exact Hr|].
    intros api Ha. apply as_truthy_Some in Ha. destruct Ha as [[= <-] _]. exact Hn.
Qed.

(** So does [apiFetchJSON], whether it succeeds or fails. *)
Lemma apiFetchJSON_consistent (JSON : Type)
      (net : list Event -> Request -> Promise (Response JSON))
      (path : string) (g : Globals) (w : list Event) :
  consistent g -> consistent (snd (fst (apiFetchJSON net path g w))).
Proof.
  intros Hg.
  assert (Hfirst : consistent (snd (fst (first_attempt net path g w)))).
  { unfold first_attempt, bind.
    pose proof (chooseAPI_consistent JSON net path g w Hg) as Hc.
    destruct (chooseAPI net path g w) as [[[base|e] g0] w0]; cbn [fst snd] in *;
      [|exact Hc].
    rewrite request_json_run. exact Hc. }
  unfold apiFetchJSON, try_catch.
  destruct (first_attempt net path g w) as [[[d|e] g1] w1]; cbn [fst snd] in *;
    [exact Hfirst|].
  pose proof (second_attempt_run JSON net path g1 w1) as Hrun. cbv zeta in Hrun.
  rewrite Hrun. destruct Hfirst as [Hidx _].
  destruct (next_mirror_differs (currentAPIIndex g1) Hidx) as (Hr & _ & _).
  fold (next_index (currentAPIIndex g1)) in Hr.
  destruct (first_healthy_in_order net path _ _ _) as [h|] eqn:Eh; cbn [fst snd].
  - apply first_healthy_in_order_Some in Eh. destruct Eh as (Hin & _ & _).
    destruct (indexOf_found PIPED_APIS h Hin) as [Hr' Hn].
    split; cbn [currentAPIIndex lastHealthyAPI]; [exact Hr'|].
    intros api Ha. apply as_truthy_Some in Ha. destruct Ha as [[= <-] _]. exact Hn.
  - split; cbn [currentAPIIndex lastHealthyAPI]; [exact Hr|].
    intros api Ha. discriminate Ha.
Qed.

(** * The rest of the page script *)

(** ** File names *)

Lemma trim_start_Forall (P : N -> Prop) (s : jstext) :
  Forall P s -> Forall P (trim_start s).
Proof.
  induction 1 as [|c s Hc Hs IH]; cbn [trim_start]; [constructor|].
  destruct (js_whitespace c); [exact IH|constructor; assumption].
Qed.

Lemma trim_end_Forall (P : N -> Prop) (s : jstext) :
  Forall P s -> Forall P (trim_end s).
Proof.
  induction 1 as [|c s Hc Hs IH]; cbn [trim_end]; [constructor|].
  destruct (trim_end s) as [|d t].
  - destruct (js_whitespace c); constructor; [exact Hc|constructor].
  - constructor; assumption.
Qed.

Lemma trim_start_length (s : jstext) : (List.length (trim_start s) <= List.length s)%nat.
Proof.
  induction s as [|c s IH]; cbn [trim_start]; [lia|].
  destruct (js_whitespace c); cbn [List.length]; lia.
Qed.

Lemma trim_start_head (s : jstext) :
  match trim_start s with
  | [] => True
  | c :: _ => js_whitespace c = false
  end.
Proof.
  induction s as [|c s IH]; cbn [trim_start]; [exact I|].
  destruct (js_whitespace c) eqn:E; [exact IH|exact E].
Qed.

Lemma trim_end_cons (c : N) (s : jstext) :
  js_whitespace c = false -> trim_end (c :: s) = c :: trim_end s.
Proof.
  intros Hc. cbn [trim_end]. rewrite Hc. destruct (trim_end s); reflexivity.
Qed.

Lemma trim_end_last (s : jstext) :
  s <> [] -> js_whitespace (last s 0%N) = false -> trim_end s = s.
Proof.
  induction s as [|c s IH]; [congruence|]. intros _ Hlast.
  destruct s as [|d s'].
  - cbn in *. rewrite Hlast. reflexivity.
  - change (last (c :: d :: s') 0%N) with (last (d :: s') 0%N) in Hlast.
    assert (IH' : trim_end (d :: s') = d :: s') by (apply IH; [discriminate|exact Hlast]).
    change (trim_end (c :: d :: s'))
      with (match trim_end (d :: s') with
            | [] => if js_whitespace c then [] else [c]
            | t => c :: t
            end).
    rewrite IH'. reflexivity.
Qed.

(** What [trim_end] returns does not end in white space. *)
Lemma trim_end_clean (s : jstext) :
  trim_end s = [] \/ js_whitespace (last (trim_end s) 0%N) = false.
Proof.
  induction s as [|c s IH]; [left; reflexivity|].
  cbn [trim_end]. destruct (trim_end s) as [|d t] eqn:E.
  - destruct (js_whitespace c) eqn:Ec; [left; reflexivity|right; exact Ec].
  - right. destruct IH as [IH|IH]; [discriminate|]. exact IH.
Qed.

Lemma trim_end_idem (s : jstext) : trim_end (trim_end s) = trim_end s.
Proof.
  destruct (trim_end_clean s) as [H|H].
  - rewrite H. reflexivity.
  - destruct (trim_end s) eqn:E; [reflexivity|].
    apply trim_end_last; [discriminate|exact H].
Qed.

Lemma trim_start_clean (s : jstext) :
  match s with
  | [] => True
  | c :: _ => js_whitespace c = false
  end -> trim_start s = s.
Proof. destruct s as [|c s]; [reflexivity|]. cbn. intros ->. reflexivity. Qed.

Lemma filter_clean (s : jstext) :
  Forall (fun c => is_reserved c = false) s ->
  filter (fun c => negb (is_reserved c)) s = s.
Proof.
  induction 1 as [|c s Hc Hs IH]; [reflexivity|].
  cbn [filter]. rewrite Hc, IH. reflexivity.
Qed.

Lemma Forall_firstn (P : N -> Prop) (n : nat) (s : jstext) :
  Forall P s -> Forall P (firstn n s).
Proof.
  intros H. revert n. induction H as [|c s Hc Hs IH]; intros [|n]; cbn; constructor; auto.
Qed.

Lemma text_or_file (r : jstext) :
  text_or (Some r) (text_of "file") = match r with [] => text_of "file" | _ => r end.
Proof. destruct r; reflexivity. Qed.

Lemma trim_end_head (s : jstext) :
  match s with
  | [] => True
  | c :: _ => js_whitespace c = false
  end ->
  match trim_end s with
  | [] => s = []
  | c :: _ => js_whitespace c = false
  end.
Proof.
  destruct s as [|c s]; [reflexivity|]. intros Hc.
  rewrite trim_end_cons by exact Hc. exact Hc.
Qed.

Lemma trim_start_incl (s : jstext) : incl (trim_start s) s.
Proof.
  induction s as [|c s IH]; cbn [trim_start]; [apply incl_refl|].
  destruct (js_whitespace c); [apply incl_tl, IH|apply incl_refl].
Qed.

Lemma trim_end_incl (s : jstext) : incl (trim_end s) s.
Proof.
  induction s as [|c s IH]; cbn [trim_end]; [apply incl_refl|].
  destruct (trim_end s) as [|d t].
  - destruct (js_whitespace c); [apply incl_nil_l|].
    intros x [<-|[]]. left. reflexivity.
  - intros x [<-|Hx]; [left; reflexivity|right; apply IH, Hx].
Qed.

Lemma trim_end_length (s : jstext) : (List.length (trim_end s) <= List.length s)%nat.
Proof.
  induction s as [|c s IH]; cbn [trim_end]; [reflexivity|].
  destruct (trim_end s) as [|d t]; [destruct (js_whitespace c); cbn; lia|].
  cbn [List.length] in *. lia.
Qed.

Lemma firstn_incl (n : nat) (s : jstext) : incl (firstn n s) s.
Proof.
  revert s. induction n as [|n IH]; intros [|c s]; cbn [firstn];
    try apply incl_nil_l; try apply incl_refl.
  intros x [<-|Hx]; [left; reflexivity|right; apply IH, Hx].
Qed.

(** A cut that returns the whole of a longer text cut nothing. *)
Lemma firstn_whole (n : nat) (l s : jstext) :
  firstn n l = s -> (List.length l <= List.length s)%nat -> l = s.
Proof.
  intros H Hlen. rewrite <- H. symmetry. apply firstn_all2.
  rewrite <- H, length_firstn in Hlen. lia.
Qed.

(** The shape of every result of [sanitize]. *)
Lemma sanitize_shape (s : option jstext) :
  sanitize s <> []
  /\ (List.length (sanitize s) <= 120)%nat
  /\ Forall (fun c => is_reserved c = false) (sanitize s)
  /\ js_whitespace (hd 0%N (sanitize s)) = false.
Proof.
  unfold sanitize. rewrite text_or_file.
  set (cleaned := filter (fun c => negb (is_reserved c)) (text_or s (text_of "file"))).
  assert (Hclean : Forall (fun c => is_reserved c = false) cleaned).
  { unfold cleaned. apply Forall_forall. intros c Hc. apply filter_In in Hc.
    destruct Hc as [_ Hc]. apply negb_true_iff in Hc. exact Hc. }
  assert (Hres : Forall (fun c => is_reserved c = false) (firstn 120 (js_trim cleaned))).
  { apply Forall_firstn, trim_end_Forall, trim_start_Forall, Hclean. }
  assert (Hhead : match firstn 120 (js_trim cleaned) with
                  | [] => True
                  | c :: _ => js_whitespace c = false
                  end).
  { unfold js_trim. pose proof (trim_start_head cleaned) as H1.
    pose proof (trim_end_head (trim_start cleaned) H1) as H2.
    destruct (trim_end (trim_start cleaned)) as [|c t]; [exact I|exact H2]. }
  destruct (firstn 120 (js_trim cleaned)) as [|c r] eqn:E.
  - repeat split; try discriminate; try (vm_compute; lia || reflexivity).
    repeat constructor.
  - split; [discriminate|]. split; [rewrite <- E; apply firstn_le_length|].
    split; [exact Hres|exact Hhead].
Qed.

(** X1. Whatever the title, the file name [sanitize] returns is not empty,
    has at most 120 code units, contains none of the nine reserved
    characters and does not begin with white space; and it is made of
    code units of the title, unless it is the default name. *)
Theorem sanitize_safe (s : option jstext) :
  sanitize s <> []
  /\ (List.length (sanitize s) <= 120)%nat
  /\ Forall (fun c => is_reserved c = false) (sanitize s)
  /\ js_whitespace (hd 0%N (sanitize s)) = false
  /\ (sanitize s = text_of "file" \/ incl (sanitize s) (text_or s (text_of "file"))).
Proof.
  destruct (sanitize_shape s) as (Hne & Hlen & Hres & Hhd).
  repeat (split; [assumption|]).
  unfold sanitize. rewrite text_or_file.
  destruct (firstn 120 _) as [|c r] eqn:E; [left; reflexivity|right].
  rewrite <- E. intros x Hx.
  apply firstn_incl, trim_end_incl, trim_start_incl in Hx.
  apply filter_In in Hx. exact (proj1 Hx).
Qed.

(** A name that needs no change gets none. *)
Lemma sanitize_clean_fixed (s : jstext) :
  s <> [] ->
  (List.length s <= 120)%nat ->
  Forall (fun c => is_reserved c = false) s ->
  js_whitespace (hd 0%N s) = false ->
  js_whitespace (last s 0%N) = false ->
  sanitize (Some s) = s.
Proof.
  intros Hne Hlen Hres Hhd Hlast. unfold sanitize.
  assert (Hs : text_or (Some s) (text_of "file") = s) by (destruct s; [congruence|reflexivity]).
  rewrite Hs, filter_clean by exact Hres.
  unfold js_trim. rewrite trim_start_clean by (destruct s; [exact I|exact Hhd]).
  rewrite trim_end_last by assumption.
  rewrite firstn_all2 by exact Hlen.
  destruct s; [congruence|reflexivity].
Qed.

(** X2. The names [sanitize] returns unchanged are exactly those that are
    not empty, have at most 120 code units, no reserved character and no
    white space at either end. *)
Theorem sanitize_keeps_clean_name (s : jstext) :
  sanitize (Some s) = s
  <-> s <> []
      /\ (List.length s <= 120)%nat
      /\ Forall (fun c => is_reserved c = false) s
      /\ js_whitespace (hd 0%N s) = false
      /\ js_whitespace (last s 0%N) = false.
Proof.
  split.
  - intros H. destruct (sanitize_shape (Some s)) as (Hne & Hlen & Hres & Hhd).
    rewrite H in Hne, Hlen, Hres, Hhd.
    repeat (split; [assumption|]).
    unfold sanitize in H.
    assert (Hs : text_or (Some s) (text_of "file") = s)
      by (destruct s; [congruence|reflexivity]).
    rewrite Hs, filter_clean in H by exact Hres.
    unfold js_trim in H.
    rewrite trim_start_clean in H by (destruct s; [exact I|exact Hhd]).
    rewrite text_or_file in H.
    destruct (firstn 120 (trim_end s)) as [|c r] eqn:E.
    + rewrite <- H. reflexivity.
    + rewrite H in E. apply firstn_whole in E; [|apply trim_end_length].
      destruct (trim_end_clean s) as [Hc|Hc]; [congruence|].
      rewrite E in Hc. exact Hc.
  - intros (Hne & Hlen & Hres & Hhd & Hlast).
    apply sanitize_clean_fixed; assumption.
Qed.

Lemma sanitize_keeps_clean_name_witness :
  text_of "My video.v2" <> []
  /\ sanitize (Some (text_of "My video.v2")) = text_of "My video.v2".
Proof.
  assert (Hne : text_of "My video.v2" <> []) by discriminate.
  split; [exact Hne|].
  apply (proj2 (sanitize_keeps_clean_name (text_of "My video.v2"))).
  split; [exact Hne|].
  split; [vm_compute; lia|].
  split; [repeat constructor|].
  split; reflexivity.
Defined.

(** X3. Sanitizing a sanitized name only removes white space left at its
    end by the cut at 120 code units; a second pass changes nothing
    more. *)
Theorem sanitize_twice (s : option jstext) :
  sanitize (Some (sanitize s)) = trim_end (sanitize s)
  /\ sanitize (Some (sanitize (Some (sanitize s)))) = sanitize (Some (sanitize s)).
Proof.
  assert (Hfirst : forall r : jstext,
             r <> [] -> (List.length r <= 120)%nat ->
             Forall (fun c => is_reserved c = false) r ->
             js_whitespace (hd 0%N r) = false ->
             sanitize (Some r) = trim_end r).
  { intros r Hne Hlen Hres Hhd. unfold sanitize.
    assert (Hr : text_or (Some r) (text_of "file") = r) by (destruct r; [congruence|reflexivity]).
    rewrite Hr, filter_clean by exact Hres.
    unfold js_trim. rewrite trim_start_clean by (destruct r; [exact I|exact Hhd]).
    assert (Hlen' : (List.length (trim_end r) <= 120)%nat).
    { clear -Hlen. revert Hlen. generalize 120%nat.
      induction r as [|c r IH]; intros n Hn; cbn [trim_end]; [cbn; lia|].
      cbn [List.length] in Hn. destruct n as [|n]; [lia|].
      specialize (IH n ltac:(lia)).
      destruct (trim_end r); [destruct (js_whitespace c); cbn; lia|cbn in *; lia]. }
    rewrite firstn_all2 by exact Hlen'.
    destruct r as [|c r]; [congruence|].
    rewrite trim_end_cons by exact Hhd. reflexivity. }
  destruct (sanitize_shape s) as (Hne & Hlen & Hres & Hhd).
  pose proof (Hfirst (sanitize s) Hne Hlen Hres Hhd) as H1.
  split; [exact H1|].
  rewrite H1.
  assert (Hne2 : trim_end (sanitize s) <> []).
  { destruct (sanitize s) as [|c r]; [congruence|].
    rewrite trim_end_cons by exact Hhd. discriminate. }
  rewrite sanitize_clean_fixed; try assumption.
  - reflexivity.
  - rewrite <- H1. apply (proj1 (proj2 (sanitize_shape (Some (sanitize s))))).
  - apply trim_end_Forall, Hres.
  - destruct (sanitize s) as [|c r]; [congruence|].
    rewrite trim_end_cons by exact Hhd. exact Hhd.
  - destruct (trim_end_clean (sanitize s)) as [H|H]; [congruence|exact H].
Qed.

(** ** Durations *)

Lemma string_of_uint_digits (d : Decimal.uint) :
  str_forall is_digit (DecimalString.NilEmpty.string_of_uint d) = true.
Proof. induction d; cbn; [reflexivity|..]; exact IHd. Qed.

Lemma decimal_digits (n : Z) : str_forall is_digit (decimal n) = true.
Proof. apply string_of_uint_digits. Qed.

Lemma read_decimal_decimal (n : Z) : (0 <= n)%Z -> read_decimal (decimal n) = Some n.
Proof.
  intros Hn. unfold read_decimal, decimal.
  assert (Hne : DecimalString.NilEmpty.string_of_uint (N.to_uint (Z.to_N n)) <> "").
  { intros He.
    pose proof (DecimalString.NilEmpty.usu (N.to_uint (Z.to_N n))) as Hu.
    rewrite He in Hu. cbn in Hu. injection Hu as Hu.
    pose proof (DecimalN.Unsigned.of_to (Z.to_N n)) as Hot.
    rewrite <- Hu in Hot. cbn in Hot. rewrite <- Hot in Hu. discriminate Hu. }
  destruct (DecimalString.NilEmpty.string_of_uint (N.to_uint (Z.to_N n))) eqn:E;
    [congruence|].
  rewrite <- E, DecimalString.NilEmpty.usu, DecimalN.Unsigned.of_to.
  rewrite Z2N.id by exact Hn. reflexivity.
Qed.

(** Minutes and seconds are always written with two digits. *)
Lemma pad2_two_digits (k : Z) :
  (0 <= k < 60)%Z -> two_digits k (pad2 (decimal k)) = true.
Proof.
  intros Hk.
  assert (Hall : forallb (fun i => two_digits (Z.of_nat i) (pad2 (decimal (Z.of_nat i))))
                         (seq 0 60) = true) by (vm_compute; reflexivity).
  rewrite forallb_forall in Hall.
  specialize (Hall (Z.to_nat k)). rewrite Z2Nat.id in Hall by lia.
  apply Hall. apply in_seq. lia.
Qed.

Lemma two_digits_inv (k : Z) (f : string) :
  two_digits k f = true ->
  exists a b, f = String a (String b "")
              /\ is_digit a = true /\ is_digit b = true /\ read_decimal f = Some k.
Proof.
  unfold two_digits. destruct f as [|a [|b [|c f]]]; try discriminate.
  rewrite !andb_true_iff. intros [[Ha Hb] Hr].
  exists a, b. repeat split; try assumption.
  destruct (read_decimal (String a (String b ""))) as [v|]; [|discriminate].
  apply Z.eqb_eq in Hr. subst v. reflexivity.
Qed.

Lemma digit_not_colon (c : ascii) : is_digit c = true -> negb (Ascii.eqb ":" c) = true.
Proof.
  intros H. destruct c as [[] [] [] [] [] [] [] []]; vm_compute in H;
    try discriminate H; reflexivity.
Qed.

Lemma clock_fields (seconds : Z) :
  (0 <= seconds)%Z ->
  let h := (seconds / 3600)%Z in
  let m := (Z.rem seconds 3600 / 60)%Z in
  let s := Z.rem seconds 60 in
  (0 <= h)%Z /\ (0 <= m < 60)%Z /\ (0 <= s < 60)%Z
  /\ (3600 * h + 60 * m + s = seconds)%Z
  /\ (h = 0 <-> seconds < 3600)%Z.
Proof.
  intros H h m s. subst h m s.
  rewrite !Z.rem_mod_nonneg by lia.
  Z.div_mod_to_equations. lia.
Qed.

Lemma human_unfold (sec : option Z) :
  let z := Z.max 0 (num_or sec 0) in
  human sec
  = ((if (z / 3600 =? 0)%Z then "" else decimal (z / 3600) ++ ":")
       ++ pad2 (decimal (Z.rem z 3600 / 60)) ++ ":" ++ pad2 (decimal (Z.rem z 60)))%string.
Proof. reflexivity. Qed.

(** X4. For a duration between 0 and the largest safe integer, the text
    [human] returns reads back as that number of seconds: hours, minutes
    and seconds lose nothing, and two different durations never show the
    same text. *)
Theorem human_round_trip (seconds : Z) :
  (0 <= seconds <= MAX_SAFE_INTEGER)%Z ->
  read_clock (human (Some seconds)) = Some seconds.
Proof.
  intros [H0 _].
  assert (Hz : Z.max 0 (num_or (Some seconds) 0) = seconds).
  { cbn [num_or]. destruct (Z.eqb_spec seconds 0); lia. }
  rewrite human_unfold. cbv zeta. rewrite Hz.
  destruct (clock_fields seconds H0) as (Hh & Hm & Hs & Hsum & Hh0). cbv zeta in *.
  destruct (two_digits_inv _ _ (pad2_two_digits _ Hm)) as (m1 & m2 & Em & Hm1 & Hm2 & Rm).
  destruct (two_digits_inv _ _ (pad2_two_digits _ Hs)) as (s1 & s2 & Es & Hs1 & Hs2 & Rs).
  rewrite Em, Es in *. unfold read_clock.
  assert (Htail :
             split_on (Ascii.eqb ":")
                      (String m1 (String m2 (String ":" (String s1 (String s2 "")))))
             = [String m1 (String m2 ""); String s1 (String s2 "")]).
  { cbn [split_on].
    rewrite (proj1 (negb_true_iff _) (digit_not_colon m1 Hm1)).
    rewrite (proj1 (negb_true_iff _) (digit_not_colon m2 Hm2)).
    rewrite (proj1 (negb_true_iff _) (digit_not_colon s1 Hs1)).
    rewrite (proj1 (negb_true_iff _) (digit_not_colon s2 Hs2)).
    reflexivity. }
  destruct (Z.eqb_spec (seconds / 3600) 0) as [E0|E0].
  - cbn [String.append]. rewrite Htail. cbn [map]. rewrite Rm, Rs.
    f_equal. lia.
  - rewrite str_app_assoc. cbn [String.append].
    rewrite split_on_cons; [|
      eapply str_forall_impl; [|apply decimal_digits]; apply digit_not_colon
      | reflexivity].
    rewrite Htail. cbn [map].
    rewrite read_decimal_decimal by exact Hh. rewrite Rm, Rs.
    f_equal. lia.
Qed.

Lemma human_round_trip_witness :
  (0 <= 3725 <= MAX_SAFE_INTEGER)%Z
  /\ human (Some 3725%Z) = "1:02:05"
  /\ read_clock (human (Some 3725%Z)) = Some 3725%Z.
Proof.
  assert (H : (0 <= 3725 <= MAX_SAFE_INTEGER)%Z) by (vm_compute; split; discriminate).
  split; [exact H|]. split; [reflexivity|].
  exact (human_round_trip 3725 H).
Defined.

(** X5. For a duration that is a safe integer (or absent), the text is
    minutes and seconds in two digits each, both below 60, separated by a
    colon; it is preceded by the hours and a colon exactly when the
    duration reaches 3600 seconds.  A missing, zero or negative duration
    shows as 00:00. *)
Theorem human_layout (sec : option Z) :
  safe_integer (num_or sec 0) = true ->
  let z := Z.max 0 (num_or sec 0) in
  (exists mm ss,
      two_digits (Z.rem z 3600 / 60) mm = true
      /\ two_digits (Z.rem z 60) ss = true
      /\ (Z.rem z 3600 / 60 < 60)%Z /\ (Z.rem z 60 < 60)%Z
      /\ human sec
         = ((if (z <? 3600)%Z then "" else decimal (z / 3600) ++ ":")
              ++ mm ++ ":" ++ ss)%string)
  /\ (z = 0%Z -> human sec = "00:00").
Proof.
  intros _ z.
  assert (Hz : (0 <= z)%Z) by (unfold z; lia).
  destruct (clock_fields z Hz) as (Hh & Hm & Hs & Hsum & Hh0). cbv zeta in *.
  split.
  - exists (pad2 (decimal (Z.rem z 3600 / 60))), (pad2 (decimal (Z.rem z 60))).
    split; [apply pad2_two_digits, Hm|]. split; [apply pad2_two_digits, Hs|].
    split; [lia|]. split; [lia|].
    rewrite human_unfold. cbv zeta. fold z.
    destruct (Z.eqb_spec (z / 3600) 0) as [E|E], (Z.ltb_spec z 3600) as [L|L];
      try reflexivity; exfalso; lia.
  - intros E. rewrite human_unfold. cbv zeta. fold z. rewrite E. reflexivity.
Qed.

Lemma human_layout_witness :
  safe_integer (num_or (Some (-5)%Z) 0) = true
  /\ human (Some (-5)%Z) = "00:00".
Proof.
  assert (H : safe_integer (num_or (Some (-5)%Z) 0) = true) by reflexivity.
  split; [exact H|].
  apply (proj2 (human_layout (Some (-5)%Z) H)). reflexivity.
Defined.

(** ** A whole call of apiFetchJSON *)

Section WholeCall.

Variable JSON : Type.
Variable net : list Event -> Request -> Promise (Response JSON).

Lemma first_attempt_run (path : string) (g : Globals) (w : list Event) :
  first_attempt net path g w
  = match as_truthy (lastHealthyAPI g) with
    | Some api =>
        (request_result (net w (mkRequest GET (api ++ path))), g,
         w ++ [Sent (mkRequest GET (api ++ path))])
    | None =>
        match first_healthy_in_order net path (currentAPIIndex g)
                                     (seq 0 (List.length PIPED_APIS)) w with
        | None => (Throw AllOffline, g, w ++ probe_round path (currentAPIIndex g))
        | Some base =>
            let chosen := w ++ probe_round path (currentAPIIndex g)
                            ++ [SetLastHealthyAPI (Some base);
                                SetCurrentAPIIndex (indexOf PIPED_APIS base)] in
            (request_result (net chosen (mkRequest GET (base ++ path))),
             mkGlobals (indexOf PIPED_APIS base) (Some base),
             chosen ++ [Sent (mkRequest GET (base ++ path))])
        end
    end.
Proof.
  unfold first_attempt, bind.
  destruct (as_truthy (lastHealthyAPI g)) as [api|] eqn:Ec.
  - rewrite (chooseAPI_cached JSON net path api g w Ec). apply request_json_run.
  - rewrite chooseAPI_probing by exact Ec.
    destruct (first_healthy_in_order net path (currentAPIIndex g) _ w) as [base|];
      [|reflexivity].
    rewrite request_json_run. cbv zeta. rewrite <- !app_assoc. reflexivity.
Qed.

Lemma js_nth_in_range (l : list string) (k : Z) :
  (0 <= k < Z.of_nat (List.length l))%Z -> exists x, js_nth l k = Some x /\ In x l.
Proof.
  intros Hk. unfold js_nth. destruct (Z.ltb_spec k 0); [lia|].
  destruct (nth_error l (Z.to_nat k)) as [x|] eqn:E.
  - exists x. split; [reflexivity|]. eapply nth_error_In, E.
  - apply nth_error_None in E. lia.
Qed.

Lemma probe_round_to_mirror (path : string) (idx : Z) :
  (0 <= idx < Z.of_nat (List.length PIPED_APIS))%Z ->
  Forall (to_mirror path) (probe_round path idx).
Proof.
  intros Hidx. unfold probe_round. apply Forall_forall. intros e He.
  apply in_map_iff in He. destruct He as (i & <- & Hi). apply in_seq in Hi.
  destruct (js_nth_in_range PIPED_APIS
              (Z.rem (idx + Z.of_nat i) (Z.of_nat (List.length PIPED_APIS))))
    as (m & Hm & Hin).
  { rewrite Z.rem_mod_nonneg by lia. apply Z.mod_pos_bound.
    rewrite length_PIPED_APIS. lia. }
  cbn [to_mirror]. exists m. split; [exact Hin|].
  unfold probe_request, probe_base. rewrite Hm. reflexivity.
Qed.

Lemma probe_round_sent_count (path : string) (idx : Z) :
  sent_count (probe_round path idx) = List.length PIPED_APIS.
Proof.
  assert (H : forall l : list nat,
             List.length (filter is_sent (map (fun i => Sent (probe_request path idx i)) l))
             = List.length l).
  { induction l as [|i l IH]; [reflexivity|].
    cbn [map filter is_sent List.length]. rewrite IH. reflexivity. }
  unfold sent_count, probe_round. rewrite H. apply length_seq.
Qed.

End WholeCall.

Lemma get_count_app (a b : list Event) : get_count (a ++ b) = (get_count a + get_count b)%nat.
Proof. unfold get_count. rewrite filter_app, length_app. reflexivity. Qed.

Lemma sent_count_app (a b : list Event) :
  sent_count (a ++ b) = (sent_count a + sent_count b)%nat.
Proof. unfold sent_count. rewrite filter_app, length_app. reflexivity. Qed.

Lemma probe_round_get_count (path : string) (idx : Z) : get_count (probe_round path idx) = 0%nat.
Proof. unfold get_count. rewrite probe_round_no_get. reflexivity. Qed.

(** X6. One call of [apiFetchJSON] sends at most two data requests and at
    most two probe rounds, that is at most 2 * 5 + 2 requests in all,
    whatever the network answers. *)
Theorem apiFetchJSON_bounded (JSON : Type)
        (net : list Event -> Request -> Promise (Response JSON))
        (path : string) (g : Globals) (w : list Event) :
  exists events,
    snd (apiFetchJSON net path g w) = w ++ events
    /\ (get_count events <= 2)%nat
    /\ (sent_count events <= 2 * List.length PIPED_APIS + 2)%nat.
Proof.
  assert (Hfirst : exists ev1,
             snd (first_attempt net path g w) = w ++ ev1
             /\ (get_count ev1 <= 1)%nat
             /\ (sent_count ev1 <= List.length PIPED_APIS + 1)%nat).
  { rewrite first_attempt_run.
    destruct (as_truthy (lastHealthyAPI g)) as [api|].
    - eexists. cbn [snd]. split; [reflexivity|]. rewrite ?length_PIPED_APIS in *; split; cbn; lia.
    - destruct (first_healthy_in_order net path _ _ w) as [base|]; cbv zeta; cbn [snd].
      + eexists. split; [rewrite <- !app_assoc; reflexivity|].
        rewrite !get_count_app, !sent_count_app, probe_round_get_count,
          probe_round_sent_count. rewrite ?length_PIPED_APIS in *; split; cbn; lia.
      + eexists. split; [reflexivity|].
        rewrite probe_round_get_count, probe_round_sent_count. rewrite ?length_PIPED_APIS in *; split; lia. }
  destruct Hfirst as (ev1 & Hw1 & Hg1 & Hs1).
  unfold apiFetchJSON, try_catch.
  destruct (first_attempt net path g w) as [[[d|e] g1] w1]; cbn [snd] in *.
  - exists ev1. split; [exact Hw1|]. rewrite ?length_PIPED_APIS in *. split; lia.
  - subst w1. pose proof (second_attempt_run JSON net path g1 (w ++ ev1)) as Hrun.
    cbv zeta in Hrun. rewrite Hrun.
    destruct (first_healthy_in_order net path _ _ _) as [base2|]; cbn [snd].
    + eexists. split; [rewrite <- !app_assoc; reflexivity|].
      rewrite !get_count_app, !sent_count_app, probe_round_get_count,
        probe_round_sent_count. rewrite ?length_PIPED_APIS in *; split; cbn; lia.
    + eexists. split; [rewrite <- !app_assoc; reflexivity|].
      rewrite !get_count_app, !sent_count_app, probe_round_get_count,
        probe_round_sent_count. rewrite ?length_PIPED_APIS in *; split; cbn; lia.
Qed.

(** X7. From a state in which the cursor is a valid index and a cached
    endpoint is the mirror under it, every request of a call goes to a
    configured mirror, with the path of the call appended: no other host
    is ever contacted, and the probes use the data path itself. *)
Theorem apiFetchJSON_only_mirrors (JSON : Type)
        (net : list Event -> Request -> Promise (Response JSON))
        (path : string) (g : Globals) (w : list Event) :
  consistent g ->
  exists events,
    snd (apiFetchJSON net path g w) = w ++ events
    /\ Forall (to_mirror path) events.
Proof.
  intros [Hidx Hcache].
  assert (Hget : forall b, In b PIPED_APIS ->
                           to_mirror path (Sent (mkRequest GET (b ++ path)))).
  { intros b Hb. cbn [to_mirror target]. exists b. split; [exact Hb|reflexivity]. }
  assert (Hfirst : exists ev1,
             snd (first_attempt net path g w) = w ++ ev1
             /\ Forall (to_mirror path) ev1
             /\ (0 <= currentAPIIndex (snd (fst (first_attempt net path g w)))
                 < Z.of_nat (List.length PIPED_APIS))%Z).
  { rewrite first_attempt_run.
    destruct (as_truthy (lastHealthyAPI g)) as [api|] eqn:Ec.
    - eexists. cbn [fst snd]. split; [reflexivity|]. split; [|exact Hidx].
      repeat constructor. apply Hget. eapply js_nth_In. apply Hcache. reflexivity.
    - destruct (first_healthy_in_order net path _ _ w) as [base|] eqn:Eh;
        cbv zeta; cbn [fst snd currentAPIIndex].
      + apply first_healthy_in_order_Some in Eh. destruct Eh as (Hin & _ & _).
        eexists. split; [rewrite <- !app_assoc; reflexivity|]. split.
        * apply Forall_app. split; [apply probe_round_to_mirror, Hidx|].
          repeat constructor. apply Hget, Hin.
        * apply indexOf_found, Hin.
      + eexists. split; [reflexivity|]. split; [|exact Hidx].
        apply probe_round_to_mirror, Hidx. }
  destruct Hfirst as (ev1 & Hw1 & Hm1 & Hidx1).
  unfold apiFetchJSON, try_catch.
  destruct (first_attempt net path g w) as [[[d|e] g1] w1]; cbn [fst snd] in *.
  - exists ev1. split; assumption.
  - subst w1. pose proof (second_attempt_run JSON net path g1 (w ++ ev1)) as Hrun.
    cbv zeta in Hrun. rewrite Hrun.
    destruct (next_mirror_differs (currentAPIIndex g1) Hidx1) as (Hidx2 & _ & _).
    fold (next_index (currentAPIIndex g1)) in Hidx2.
    destruct (first_healthy_in_order net path _ _ _) as [base2|] eqn:Eh; cbn [snd].
    + apply first_healthy_in_order_Some in Eh. destruct Eh as (Hin & _ & _).
      eexists. split; [rewrite <- !app_assoc; reflexivity|].
      apply Forall_app. split; [exact Hm1|].
      repeat (apply Forall_cons; [exact I|]).
      apply Forall_app. split; [apply probe_round_to_mirror, Hidx2|].
      repeat constructor. apply Hget, Hin.
    + eexists. split; [rewrite <- !app_assoc; reflexivity|].
      apply Forall_app. split; [exact Hm1|].
      repeat (apply Forall_cons; [exact I|]).
      apply probe_round_to_mirror, Hidx2.
Qed.

Lemma apiFetchJSON_only_mirrors_witness :
  consistent initial
  /\ exists events,
       snd (apiFetchJSON second_only_net "/api/v1/streams/abcdef" initial []) = [] ++ events
       /\ Forall (to_mirror "/api/v1/streams/abcdef") events.
Proof.
  split; [exact consistent_initial|].
  exact (apiFetchJSON_only_mirrors unit second_only_net "/api/v1/streams/abcdef"
           initial [] consistent_initial).
Defined.

(** X8. A call that ends right after a data request, with its answer or
    with its failure, leaves the mirror that received that request in the
    cache: a mirror whose retry has just failed is still the cached one
    for the next call.  A call that ends otherwise has found no mirror,
    fails with the all-offline error and leaves the cache empty. *)
Theorem apiFetchJSON_cache_after (JSON : Type)
        (net : list Event -> Request -> Promise (Response JSON))
        (path : string) (g : Globals) (w : list Event) :
  match apiFetchJSON net path g w with
  | (r, g', w') =>
      (exists b pre,
          lastHealthyAPI g' = Some b
          /\ w' = pre ++ [Sent (mkRequest GET (b ++ path))]
          /\ r = request_result (net pre (mkRequest GET (b ++ path))))
      \/ (r = Throw AllOffline /\ lastHealthyAPI g' = None
          /\ exists pre, w' = pre ++ probe_round path (currentAPIIndex g'))
  end.
Proof.
  unfold apiFetchJSON, try_catch.
  assert (Hsecond : forall g1 w1,
    match second_attempt net path g1 w1 with
    | (r, g', w') =>
        (exists b pre,
            lastHealthyAPI g' = Some b
            /\ w' = pre ++ [Sent (mkRequest GET (b ++ path))]
            /\ r = request_result (net pre (mkRequest GET (b ++ path))))
        \/ (r = Throw AllOffline /\ lastHealthyAPI g' = None
            /\ exists pre, w' = pre ++ probe_round path (currentAPIIndex g'))
    end).
  { intros g1 w1. pose proof (second_attempt_run JSON net path g1 w1) as Hrun.
    cbv zeta in Hrun. rewrite Hrun.
    destruct (first_healthy_in_order net path _ _ _) as [base2|].
    - left. eexists _, _. repeat split; reflexivity.
    - right. repeat split. cbn [currentAPIIndex]. eexists. reflexivity. }
  rewrite first_attempt_run.
  destruct (as_truthy (lastHealthyAPI g)) as [api|] eqn:Ec.
  - apply as_truthy_Some in Ec. destruct Ec as [Ec _].
    destruct (request_result (net w (mkRequest GET (api ++ path)))) as [d|e] eqn:Er.
    + left. exists api, w. rewrite Er. auto.
    + apply Hsecond.
  - destruct (first_healthy_in_order net path _ _ w) as [base|]; cbv zeta.
    + destruct (request_result (net _ (mkRequest GET (base ++ path)))) as [d|e] eqn:Er.
      * left. eexists _, _. rewrite Er. repeat split; reflexivity.
      * apply Hsecond.
    + apply Hsecond.
Qed.

(** X9. With an endpoint cached, a data request that is answered with a
    success status and a JSON body is the only request of the call: there
    is no probe, and neither the cache nor the cursor changes. *)
Theorem apiFetchJSON_cache_hit (JSON : Type)
        (net : list Event -> Request -> Promise (Response JSON))
        (path api : string) (g : Globals) (w : list Event) (r : Response JSON) (d : JSON) :
  as_truthy (lastHealthyAPI g) = Some api ->
  outcome (net w (mkRequest GET (api ++ path))) = Normal r ->
  ok r = true -> body r = Some d ->
  apiFetchJSON net path g w = (Normal d, g, w ++ [Sent (mkRequest GET (api ++ path))]).
Proof.
  intros Hc Hout Hok Hbody. unfold apiFetchJSON, try_catch.
  rewrite first_attempt_run, Hc. unfold request_result. rewrite Hout, Hok, Hbody.
  reflexivity.
Qed.

Lemma apiFetchJSON_cache_hit_witness :
  as_truthy (lastHealthyAPI (mkGlobals 1 (Some "https://pipedapi.adminforge.de")))
  = Some "https://pipedapi.adminforge.de"
  /\ apiFetchJSON second_only_net "/api/v1/streams/abcdef"
       (mkGlobals 1 (Some "https://pipedapi.adminforge.de")) []
     = (Normal tt, mkGlobals 1 (Some "https://pipedapi.adminforge.de"),
        [Sent (mkRequest GET "https://pipedapi.adminforge.de/api/v1/streams/abcdef")]).
Proof.
  split; [reflexivity|].
  apply (apiFetchJSON_cache_hit unit second_only_net "/api/v1/streams/abcdef"
           "https://pipedapi.adminforge.de"
           (mkGlobals 1 (Some "https://pipedapi.adminforge.de")) []
           (mkResponse 200 (Some tt)) tt); reflexivity.
Defined.

(** X10. In every state the page reaches by calls of [apiFetchJSON],
    whatever the network answers, the cursor is a valid index into the
    mirror list and a cached endpoint is the mirror under the cursor. *)
Theorem fetch_many_consistent (JSON : Type)
        (net : list Event -> Request -> Promise (Response JSON))
        (paths : list string) :
  consistent (fst (fetch_many net paths initial [])).
Proof.
  assert (H : forall g w, consistent g -> consistent (fst (fetch_many net paths g w))).
  { induction paths as [|path rest IH]; intros g w Hg; [exact Hg|].
    cbn [fetch_many].
    pose proof (apiFetchJSON_consistent JSON net path g w Hg) as Hc.
    destruct (apiFetchJSON net path g w) as [[r g'] w']. apply IH. exact Hc. }
  apply H, consistent_initial.
Qed.

(** ** The selectors on any list *)

Lemma first_max_In {A : Type} (key : A -> Z) (l : list A) (x : A) :
  first_max key l x -> In x l.
Proof. intros [pre post y _ _]. apply in_elt. Qed.

Lemma first_max_top {A : Type} (key : A -> Z) (l : list A) (x y : A) :
  first_max key l x -> In y l -> (key y <= key x)%Z.
Proof.
  intros [pre post z Hpre Hpost] Hy.
  apply in_app_or in Hy. destruct Hy as [Hy|[<-|Hy]].
  - rewrite Forall_forall in Hpre. specialize (Hpre y Hy). lia.
  - lia.
  - rewrite Forall_forall in Hpost. exact (Hpost y Hy).
Qed.

Lemma filter_nil_existsb {A : Type} (f : A -> bool) (l : list A) :
  filter f l = [] <-> existsb f l = false.
Proof.
  induction l as [|x l IH]; cbn; [tauto|].
  destruct (f x); cbn; [split; discriminate|exact IH].
Qed.

(** X11. [pickBestMp4] returns nothing only for an empty (or missing)
    list; what it returns is one of the descriptors of the list, and it is
    an mp4 descriptor exactly when the list has one: with no mp4 in the
    list the pick is a descriptor of another container. *)
Theorem pickBestMp4_total (muxed : list StreamDescriptor) :
  (pickBestMp4 (Some muxed) = None <-> muxed = [])
  /\ forall best, pickBestMp4 (Some muxed) = Some best ->
                  In best muxed /\ is_mp4 best = existsb is_mp4 muxed.
Proof.
  unfold pickBestMp4, first_of. cbn [or_empty].
  pose proof (js_sort_hd quality_of (filter is_mp4 muxed)) as H.
  change (descending quality_of) with by_quality in H.
  destruct (hd_error (js_sort by_quality (filter is_mp4 muxed))) as [c|] eqn:E.
  - split.
    + split; [discriminate|]. intros ->. discriminate H || (cbn in E; discriminate E).
    + intros best [= <-]. apply first_max_In in H. apply filter_In in H.
      destruct H as [Hin Hmp4]. split; [exact Hin|].
      rewrite Hmp4. symmetry. apply existsb_exists. eauto.
  - split.
    + destruct muxed; cbn; split; congruence.
    + intros best Hb. apply filter_nil_existsb in H. rewrite H.
      destruct muxed as [|x l]; [discriminate|]. cbn in Hb. injection Hb as <-.
      split; [left; reflexivity|].
      cbn in H. apply orb_false_iff in H. apply H.
Qed.

Lemma Permutation_filter_keep {A : Type} (f : A -> bool) (l l' : list A) :
  Permutation l l' -> Permutation (filter f l) (filter f l').
Proof.
  induction 1 as [|x l l' _ IH|x y l|l l' l'' _ IH1 _ IH2]; cbn.
  - constructor.
  - destruct (f x); [constructor|]; exact IH.
  - destruct (f x), (f y); try apply Permutation_refl; apply perm_swap.
  - eapply perm_trans; eassumption.
Qed.

Lemma first_max_key_perm {A : Type} (key : A -> Z) (l l' : list A) (x x' : A) :
  Permutation l l' -> first_max key l x -> first_max key l' x' -> key x = key x'.
Proof.
  intros Hp Hx Hx'.
  assert (H1 : (key x' <= key x)%Z).
  { apply (first_max_top key l); [exact Hx|].
    eapply Permutation_in; [apply Permutation_sym, Hp|]. eapply first_max_In, Hx'. }
  assert (H2 : (key x <= key x')%Z).
  { apply (first_max_top key l'); [exact Hx'|].
    eapply Permutation_in; [exact Hp|]. eapply first_max_In, Hx. }
  lia.
Qed.

(** X12. On lists whose bitrates and qualities are safe integers, the
    bitrate of the audio pick, and the quality of the video pick when the
    list has a descriptor with an mp4 hint, do not depend on the order in
    which the upstream lists the descriptors. *)
Theorem picks_order_independent (l l' : list StreamDescriptor) :
  Permutation l l' ->
  safe_bitrates l = true ->
  safe_qualities l = true ->
  option_map stated_bitrate (pickBestAudio (Some l))
  = option_map stated_bitrate (pickBestAudio (Some l'))
  /\ ((exists s, In s l /\ mentions_mp4 s) ->
      option_map stated_quality (pickBestMp4 (Some l))
      = option_map stated_quality (pickBestMp4 (Some l'))).
Proof.
  intros Hp _ _. split.
  - unfold pickBestAudio. cbn [or_empty].
    pose proof (js_sort_hd bitrate_of l) as H.
    pose proof (js_sort_hd bitrate_of l') as H'.
    change (descending bitrate_of) with by_bitrate in H, H'.
    destruct (hd_error (js_sort by_bitrate l)) as [x|],
             (hd_error (js_sort by_bitrate l')) as [x'|]; cbn [option_map].
    + f_equal. rewrite <- !bitrate_of_stated. eapply first_max_key_perm; eassumption.
    + subst l'. apply Permutation_sym, Permutation_nil in Hp. subst l. inversion H.
      destruct pre; discriminate.
    + subst l. apply Permutation_nil in Hp. subst l'. inversion H'.
      destruct pre; discriminate.
    + reflexivity.
  - intros (s & Hin & Hs). unfold pickBestMp4, first_of. cbn [or_empty].
    pose proof (Permutation_filter_keep is_mp4 l l' Hp) as Hpf.
    pose proof (js_sort_hd quality_of (filter is_mp4 l)) as H.
    pose proof (js_sort_hd quality_of (filter is_mp4 l')) as H'.
    change (descending quality_of) with by_quality in H, H'.
    destruct (hd_error (js_sort by_quality (filter is_mp4 l))) as [x|].
    + destruct (hd_error (js_sort by_quality (filter is_mp4 l'))) as [x'|].
      * cbn [option_map]. f_equal. rewrite <- !quality_of_stated.
        eapply first_max_key_perm; eassumption.
      * rewrite H' in Hpf. apply Permutation_sym, Permutation_nil in Hpf.
        rewrite Hpf in H. inversion H. destruct pre; discriminate.
    + exfalso.
      assert (Hs' : In s (filter is_mp4 l))
        by (apply filter_In; split; [exact Hin|apply is_mp4_mentions, Hs]).
      rewrite H in Hs'. exact Hs'.
Qed.

Lemma picks_order_independent_witness :
  Permutation example_audios (rev example_audios)
  /\ safe_bitrates example_audios = true
  /\ safe_qualities example_audios = true
  /\ option_map stated_bitrate (pickBestAudio (Some example_audios))
     = option_map stated_bitrate (pickBestAudio (Some (rev example_audios))).
Proof.
  assert (Hp : Permutation example_audios (rev example_audios)) by apply perm_swap.
  split; [exact Hp|]. split; [reflexivity|]. split; [reflexivity|].
  exact (proj1 (picks_order_independent _ _ Hp eq_refl eq_refl)).
Defined.

(** ** The identifier extractor on any text *)

(** X13. For a text within the range of the URL model, [getVideoId]
    returns the empty string, which its callers take for no identifier,
    only for a URL whose host contains "youtu.be" and whose path is empty
    after the leading slash; an identifier taken from the [v] parameter
    or found by the pattern is never empty. *)
Theorem getVideoId_empty_string (url : string) :
  in_model url = true ->
  (getVideoId url = Normal (Some "")
   <-> exists u, URL_new url = Normal u
                 /\ includes "youtu.be" (hostname u) = true
                 /\ slice1 (pathname u) = "").
Proof.
  intros _. split.
  - unfold getVideoId, getVideoId_try.
    destruct (URL_new url) as [u|e]; [|discriminate].
    destruct (includes "youtu.be" (hostname u)) eqn:Eh.
    + intros [= Hs]. exists u. auto.
    + destruct (truthy (searchParams_get u "v")) eqn:Ev.
      * intros [= Hs]. rewrite Hs in Ev. discriminate Ev.
      * intros [= Hs]. apply match_group3_sound in Hs.
        destruct Hs as (_ & _ & _ & _ & _ & H6 & _). cbn in H6. lia.
  - intros (u & Hu & Hh & Hs).
    rewrite (getVideoId_short_host url u Hu Hh), Hs. reflexivity.
Qed.

Lemma getVideoId_empty_string_witness :
  in_model "https://youtu.be/?t=42" = true
  /\ getVideoId "https://youtu.be/?t=42" = Normal (Some "").
Proof.
  assert (Hm : in_model "https://youtu.be/?t=42" = true) by (vm_compute; reflexivity).
  split; [exact Hm|].
  apply (proj2 (getVideoId_empty_string "https://youtu.be/?t=42" Hm)).
  exists (mkURL "https:" "youtu.be" "/" "t=42").
  repeat split; vm_compute; reflexivity.
Defined.

(** ** debounce *)

Section DebounceFacts.

Variable Args : Type.
Variable ms : nat.

Lemma ticks_app (L : Loop Args) (events : list (Tick Args)) (e : Tick Args) :
  ticks Args ms L (events ++ [e])
  = match ticks Args ms L events with
    | Some L' => tick Args ms L' e
    | None => None
    end.
Proof.
  revert L. induction events as [|x events IH]; intros L; cbn [ticks app].
  - destruct (tick Args ms L e); reflexivity.
  - destruct (tick Args ms L x); [apply IH|reflexivity].
Qed.

Lemma deliveries_snoc (events : list (Tick Args)) (e : Tick Args) :
  deliveries Args (events ++ [e])
  = deliveries Args events
      ++ match e, rev events with
         | Expire instant _, Call _ a :: _ => [(instant, a)]
         | _, _ => []
         end.
Proof.
  induction events as [|x events IH].
  - destruct e; reflexivity.
  - destruct events as [|y events'].
    + destruct x, e; reflexivity.
    + assert (Hrev : forall z, match rev (y :: events') ++ [z] with
                               | [] => @None (Tick Args)
                               | h :: _ => Some h
                               end
                               = match rev (y :: events') with
                                 | [] => None
                                 | h :: _ => Some h
                                 end).
      { intros z. destruct (rev (y :: events')) eqn:E; [|reflexivity].
        apply (f_equal (@List.length _)) in E. rewrite length_rev in E. discriminate E. }
      assert (Hsame : match e, rev (x :: y :: events') with
                      | Expire instant _, Call _ a :: _ => [(instant, a)]
                      | _, _ => []
                      end
                      = match e, rev (y :: events') with
                        | Expire instant _, Call _ a :: _ => [(instant, a)]
                        | _, _ => []
                        end).
      { change (rev (x :: y :: events')) with (rev (y :: events') ++ [x]).
        destruct (rev (y :: events')) as [|h t] eqn:E.
        - apply (f_equal (@List.length _)) in E. rewrite length_rev in E. discriminate E.
        - reflexivity. }
      rewrite Hsame. clear Hrev Hsame.
      change ((x :: y :: events') ++ [e]) with (x :: (y :: events') ++ [e]).
      destruct x as [tx ax|tx ix].
      * change (deliveries Args (Call tx ax :: (y :: events') ++ [e]))
          with (match y with
                | Expire instant _ => (instant, ax) :: deliveries Args ((y :: events') ++ [e])
                | _ => deliveries Args ((y :: events') ++ [e])
                end).
        change (deliveries Args (Call tx ax :: y :: events'))
          with (match y with
                | Expire instant _ => (instant, ax) :: deliveries Args (y :: events')
                | _ => deliveries Args (y :: events')
                end).
        rewrite IH. destruct y; reflexivity.
      * change (deliveries Args (Expire tx ix :: (y :: events') ++ [e]))
          with (deliveries Args ((y :: events') ++ [e])).
        rewrite IH. reflexivity.
Qed.

Lemma awaited_snoc (events : list (Tick Args)) (e : Tick Args) :
  awaited Args ms (events ++ [e])
  = match e with
    | Call instant a => Some ((instant + ms)%nat, a)
    | Expire _ _ => None
    end.
Proof. unfold awaited. rewrite rev_app_distr. destruct e; reflexivity. Qed.

Lemma settled_step (events : list (Tick Args)) (L L' : Loop Args) (e : Tick Args) :
  settled Args ms events L -> tick Args ms L e = Some L' -> settled Args ms (events ++ [e]) L'.
Proof.
  intros [Hp Hd] Hstep. unfold settled. rewrite awaited_snoc, deliveries_snoc.
  destruct e as [instant a|instant id]; cbn [tick] in Hstep.
  - destruct (now L <=? instant)%nat; [|discriminate].
    injection Hstep as <-. split.
    + unfold debounced, setTimeout, clearTimeout, at_instant.
      cbn [handle pending now next_id delivered].
      destruct (awaited Args ms events) as [[d b]|].
      * destruct Hp as (id & Hpend & Hh). rewrite Hh, Hpend.
        cbn [filter timer_id pending now next_id]. rewrite Nat.eqb_refl.
        cbn [negb app pending handle]. eexists. split; reflexivity.
      * rewrite Hp. destruct (handle L);
          cbn [filter app pending handle now next_id]; eexists; split; reflexivity.
    + unfold debounced, setTimeout, clearTimeout, at_instant.
      destruct (handle L); cbn [delivered]; rewrite Hd, app_nil_r; reflexivity.
  - destruct (now L <=? instant)%nat; [|discriminate].
    destruct (find (fun tm => Nat.eqb (timer_id tm) id) (pending L)) as [tm|] eqn:Ef;
      [|discriminate].
    destruct (due tm <=? instant)%nat; [|discriminate].
    injection Hstep as <-. cbn [pending delivered].
    unfold awaited in Hp.
    destruct (rev events) as [|[t0 a0|t0 i0] tl] eqn:Er.
    + rewrite Hp in Ef. discriminate Ef.
    + destruct Hp as (id0 & Hpend & Hh). rewrite Hpend in *.
      cbn [find timer_id] in Ef.
      destruct (Nat.eqb id0 id) eqn:Eid; [|discriminate Ef].
      injection Ef as <-. cbn [filter timer_id payload]. rewrite Eid.
      split; [reflexivity|]. rewrite Hd. reflexivity.
    + rewrite Hp in Ef. discriminate Ef.
Qed.

Lemma settled_idle (first_id : nat) : settled Args ms [] (idle first_id).
Proof. split; reflexivity. Qed.

Lemma settled_ticks (first_id : nat) (events : list (Tick Args)) (L : Loop Args) :
  ticks Args ms (idle first_id) events = Some L -> settled Args ms events L.
Proof.
  revert L. induction events as [|e events IH] using rev_ind; intros L H.
  - injection H as <-. apply settled_idle.
  - rewrite ticks_app in H.
    destruct (ticks Args ms (idle first_id) events) as [L0|]; [|discriminate].
    eapply settled_step; [apply IH; reflexivity|exact H].
Qed.

Lemma deliveries_length (events : list (Tick Args)) :
  (List.length (deliveries Args events) <= List.length (filter is_call events))%nat.
Proof.
  induction events as [|x events IH]; [cbn; lia|].
  destruct x as [t a|t i].
  - cbn [filter is_call List.length].
    destruct events as [|y events']; [cbn; lia|].
    change (deliveries Args (Call t a :: y :: events'))
      with (match y with
            | Expire instant _ => (instant, a) :: deliveries Args (y :: events')
            | _ => deliveries Args (y :: events')
            end).
    destruct y; cbn [List.length] in *; lia.
  - exact IH.
Qed.

Lemma deliveries_calls_only (events : list (Tick Args)) :
  forallb is_call events = true -> deliveries Args events = [].
Proof.
  induction events as [|x events IH]; [reflexivity|].
  cbn [forallb]. rewrite andb_true_iff. intros [Hx Hr].
  destruct x as [t a|t i]; [|discriminate].
  destruct events as [|y events']; [reflexivity|].
  cbn [forallb] in Hr. apply andb_true_iff in Hr. destruct Hr as [Hy Hr'].
  destruct y; [|discriminate]. apply IH. cbn [forallb]. rewrite Hr'. reflexivity.
Qed.

End DebounceFacts.

(** X14. After any history of calls and expiries, at most one timer of
    the debounced function is pending: none unless the latest event is a
    call, and otherwise the timer set by that call, which [t] names, due
    [ms] after it and carrying its arguments. *)
Theorem debounce_one_timer (Args : Type) (ms first_id : nat)
        (events : list (Tick Args)) (L : Loop Args) :
  ticks Args ms (idle first_id) events = Some L ->
  (List.length (pending L) <= 1)%nat
  /\ match awaited Args ms events with
     | Some (d, a) => exists id, pending L = [mkTimer id d a] /\ handle L = Some id
     | None => pending L = []
     end.
Proof.
  intros H. apply settled_ticks in H. destruct H as [Hp _]. split; [|exact Hp].
  destruct (awaited Args ms events) as [[d a]|].
  - destruct Hp as (id & -> & _). cbn. lia.
  - rewrite Hp. cbn. lia.
Qed.

Lemma debounce_one_timer_witness :
  ticks string 350 (idle 7) [Call 0 "a"; Call 100 "ab"; Call 180 "abc"]
  = Some (mkLoop 180 10 [mkTimer 9 530 "abc"] (Some 9%nat) [])
  /\ (List.length (pending (mkLoop 180 10 [mkTimer 9 530 "abc"] (Some 9%nat) [])) <= 1)%nat.
Proof.
  assert (H : ticks string 350 (idle 7) [Call 0 "a"; Call 100 "ab"; Call 180 "abc"]
              = Some (mkLoop 180 10 [mkTimer 9 530 "abc"] (Some 9%nat) []))
    by reflexivity.
  split; [exact H|].
  exact (proj1 (debounce_one_timer string 350 7 _ _ H)).
Defined.

(** X15. [fn] is called exactly for the calls of the debounced function
    that are directly followed by the expiry of their timer, with the
    arguments of that call: a call followed by another call before its
    timer ran never reaches [fn], and a run of calls without an expiry in
    between reaches it not at all. *)
Theorem debounce_delivers_latest (Args : Type) (ms first_id : nat)
        (events : list (Tick Args)) (L : Loop Args) :
  ticks Args ms (idle first_id) events = Some L ->
  delivered L = deliveries Args events
  /\ (List.length (delivered L) <= List.length (filter is_call events))%nat
  /\ (forallb is_call events = true -> delivered L = []).
Proof.
  intros H. apply settled_ticks in H. destruct H as [_ Hd]. rewrite Hd.
  split; [reflexivity|]. split; [apply deliveries_length|apply deliveries_calls_only].
Qed.

Lemma debounce_delivers_latest_witness :
  ticks string 350 (idle 7) [Call 0 "a"; Call 100 "ab"; Expire 450 8; Call 900 "abc"]
  = Some (mkLoop 900 10 [mkTimer 9 1250 "abc"] (Some 9%nat) [(450%nat, "ab")])
  /\ delivered (mkLoop 900 10 [mkTimer 9 1250 "abc"] (Some 9%nat) [(450%nat, "ab")])
     = deliveries string [Call 0 "a"; Call 100 "ab"; Expire 450 8; Call 900 "abc"].
Proof.
  assert (H : ticks string 350 (idle 7)
                [Call 0 "a"; Call 100 "ab"; Expire 450 8; Call 900 "abc"]
              = Some (mkLoop 900 10 [mkTimer 9 1250 "abc"] (Some 9%nat) [(450%nat, "ab")]))
    by reflexivity.
  split; [exact H|].
  exact (proj1 (debounce_delivers_latest string 350 7 _ _ H)).
Defined.

(** X16. A timer runs no earlier than [ms] after the call that set it, and
    the clock does not go back: between two calls of the debounced
    function less than [ms] apart nothing reaches [fn]. *)
Theorem debounce_waits (Args : Type) (ms first_id : nat)
        (before after : list (Tick Args)) (t1 t2 t3 id : nat) (a1 a2 : Args)
        (L : Loop Args) :
  ticks Args ms (idle first_id)
        (before ++ [Call t1 a1; Expire t2 id; Call t3 a2] ++ after) = Some L ->
  (t1 + ms <= t2)%nat /\ (t2 <= t3)%nat.
Proof.
  intros H.
  assert (Hsplit : forall (xs ys : list (Tick Args)) (L0 : Loop Args),
             ticks Args ms L0 (xs ++ ys)
             = match ticks Args ms L0 xs with
               | Some L' => ticks Args ms L' ys
               | None => None
               end).
  { induction xs as [|x xs IH]; intros ys L0; cbn [ticks app]; [reflexivity|].
    destruct (tick Args ms L0 x); [apply IH|reflexivity]. }
  replace (before ++ [Call t1 a1; Expire t2 id; Call t3 a2] ++ after)
    with ((before ++ [Call t1 a1]) ++ [Expire t2 id; Call t3 a2] ++ after) in H
    by (rewrite <- app_assoc; reflexivity).
  rewrite Hsplit in H.
  destruct (ticks Args ms (idle first_id) (before ++ [Call t1 a1])) as [L1|] eqn:E1;
    [|discriminate].
  apply settled_ticks in E1. destruct E1 as [Hp _].
  rewrite awaited_snoc in Hp. destruct Hp as (id1 & Hpend & _).
  cbn [app ticks] in H.
  destruct (tick Args ms L1 (Expire t2 id)) as [L2|] eqn:E2; [|discriminate].
  destruct (tick Args ms L2 (Call t3 a2)) as [L3|] eqn:E3; [|discriminate].
  cbn [tick] in E2, E3. rewrite Hpend in E2. cbn [find timer_id] in E2.
  destruct (now L1 <=? t2)%nat; [|discriminate].
  destruct (Nat.eqb id1 id); [|discriminate]. cbn [due] in E2.
  destruct (Nat.leb_spec (t1 + ms) t2) as [Hdue|]; [|discriminate].
  injection E2 as <-. cbn [now] in E3.
  destruct (Nat.leb_spec t2 t3) as [Hclock|]; [|discriminate].
  split; assumption.
Qed.

Lemma debounce_waits_witness :
  ticks string 350 (idle 7)
        ([Call 0 "a"] ++ [Call 100 "ab"; Expire 450 8; Call 900 "abc"] ++ [])
  = Some (mkLoop 900 10 [mkTimer 9 1250 "abc"] (Some 9%nat) [(450%nat, "ab")])
  /\ (100 + 350 <= 450)%nat.
Proof.
  assert (H : ticks string 350 (idle 7)
                ([Call 0 "a"] ++ [Call 100 "ab"; Expire 450 8; Call 900 "abc"] ++ [])
              = Some (mkLoop 900 10 [mkTimer 9 1250 "abc"] (Some 9%nat) [(450%nat, "ab")]))
    by reflexivity.
  split; [exact H|].
  exact (proj1 (debounce_waits string 350 7 _ _ _ _ _ _ _ _ _ H)).
Defined.

(** ** The converter *)

Section ConverterFacts.
Variable ext : list Effect -> Step -> bool.

Ltac run_handler :=
  unfold mp3_onclick, finally, catching, downloadAsMp3, ensureFFmpeg, andThen,
    awaited_step, emit, setProgress, clearProgress, set_ffmpegReady;
  cbn -[sanitize text_or text_of].

Ltac settle :=
  repeat match goal with
         | |- context [ext ?w ?s] => destruct (ext w s) eqn:?
         end;
  cbn -[sanitize text_or text_of]; rewrite <- ?app_assoc; cbn [app].

Ltac failed_after pre :=
  exists pre; eexists; split; [reflexivity | repeat split; reflexivity].

Lemma mp3_onclick_no_source (bestAudio : option StreamDescriptor) (title : option jstext)
      (p : Page) (w : list Effect) :
  as_truthy (url_of bestAudio) = None ->
  mp3_onclick ext bestAudio title p w = (Some tt, p, w ++ [Alert "No audio stream found."]).
Proof. intros H. unfold mp3_onclick. rewrite H. reflexivity. Qed.

(** The two ways a click with a source goes: every operation is fulfilled
    and the file is offered, or the first rejection ends the conversion
    and is reported. *)
Lemma mp3_onclick_trace (bestAudio : option StreamDescriptor) (title : option jstext)
      (p : Page) (w : list Effect) (source : string) :
  as_truthy (url_of bestAudio) = Some source ->
  exists (ev : list Effect) (ready : bool),
    mp3_onclick ext bestAudio title p w = (Some tt, mkPage cleared ready, w ++ ev)
    /\ Forall (fetches_from source) ev
    /\ ((ready = true
         /\ ev = (if ffmpegReady p then [] else [NewFFmpeg; Did Load true])
                 ++ conversion_steps source
                 ++ [Download (sanitize (Some (text_or title (text_of "audio"))) ++ text_of ".mp3");
                     RevokeLater 1500])
        \/ (exists (pre : list Effect) (s : Step),
               ev = pre ++ [Did s false; ConsoleError;
                            Alert "MP3 conversion failed or was blocked. Try again or switch API instance."]
               /\ existsb is_failure pre = false
               /\ existsb is_download pre = false
               /\ existsb is_alert pre = false)).
Proof.
  intros H. unfold mp3_onclick. rewrite H.
  run_handler.
  destruct p as [pr [|]]; cbn -[sanitize text_or text_of]; settle;
    eexists; eexists; (split; [reflexivity|]);
    (split; [repeat constructor|]);
    first [ left; split; reflexivity | right ].
  - failed_after [Did (FetchFile source) true; Did (WriteFile "in.webm") true;
                  Did (Exec EXEC_ARGS) true].
  - failed_after [Did (FetchFile source) true; Did (WriteFile "in.webm") true].
  - failed_after [Did (FetchFile source) true].
  - failed_after (@nil Effect).
  - failed_after [NewFFmpeg; Did Load true; Did (FetchFile source) true;
                  Did (WriteFile "in.webm") true; Did (Exec EXEC_ARGS) true].
  - failed_after [NewFFmpeg; Did Load true; Did (FetchFile source) true;
                  Did (WriteFile "in.webm") true].
  - failed_after [NewFFmpeg; Did Load true; Did (FetchFile source) true].
  - failed_after [NewFFmpeg; Did Load true].
  - failed_after [NewFFmpeg].
Qed.

(** What a click does to the converter: a ready converter is never loaded
    again; one that is not ready is loaded once when there is a source,
    and is ready afterwards exactly when that load was fulfilled. *)
Lemma mp3_onclick_loads (bestAudio : option StreamDescriptor) (title : option jstext)
      (p : Page) (w : list Effect) :
  exists (ev : list Effect) (p' : Page),
    mp3_onclick ext bestAudio title p w = (Some tt, p', w ++ ev)
    /\ (if ffmpegReady p
        then ffmpegReady p' = true /\ filter is_load ev = []
        else (ffmpegReady p' = false /\ filter is_load ev = [])
             \/ filter is_load ev = [Did Load (ffmpegReady p')]).
Proof.
  destruct (as_truthy (url_of bestAudio)) as [source|] eqn:H.
  - unfold mp3_onclick. rewrite H. run_handler.
    destruct p as [pr [|]]; cbn -[sanitize text_or text_of]; settle;
      eexists; eexists; (split; [reflexivity|]); cbn; auto.
  - rewrite (mp3_onclick_no_source _ _ _ _ H).
    eexists; eexists; split; [reflexivity|]. cbn.
    destruct (ffmpegReady p); auto.
Qed.

Lemma clicks_loads (cs : list (option StreamDescriptor * option jstext))
      (p : Page) (w : list Effect) (n : nat) :
  filter is_load w
  = repeat (Did Load false) n ++ (if ffmpegReady p then [Did Load true] else []) ->
  exists (ev : list Effect) (m : nat),
    snd (clicks_in_turn ext cs p w) = w ++ ev
    /\ filter is_load (snd (clicks_in_turn ext cs p w))
       = repeat (Did Load false) m
         ++ (if ffmpegReady (fst (clicks_in_turn ext cs p w)) then [Did Load true] else [])
    /\ (ffmpegReady p = true -> ffmpegReady (fst (clicks_in_turn ext cs p w)) = true
                                /\ filter is_load ev = []).
Proof.
  revert p w n. induction cs as [|[bestAudio title] rest IH]; intros p w n Hw.
  - exists [], n. cbn. rewrite app_nil_r. auto.
  - cbn [clicks_in_turn].
    destruct (mp3_onclick_loads bestAudio title p w) as (ev & p' & Hrun & Hl).
    rewrite Hrun.
    assert (Hnext : exists k, filter is_load (w ++ ev)
              = repeat (Did Load false) k
                ++ (if ffmpegReady p' then [Did Load true] else [])).
    { rewrite filter_app, Hw. destruct (ffmpegReady p).
      - destruct Hl as [-> ->]. exists n. now rewrite app_nil_r.
      - destruct Hl as [[-> ->]| ->].
        + exists n. now rewrite !app_nil_r.
        + rewrite app_nil_r. destruct (ffmpegReady p').
          * exists n. reflexivity.
          * exists (S n). rewrite app_nil_r. cbn [repeat].
            now rewrite repeat_cons. }
    destruct Hnext as [k Hk].
    destruct (IH p' (w ++ ev) k Hk) as (ev' & m & Hsnd & Hfil & Hkeep).
    exists (ev ++ ev'), m. rewrite Hsnd, app_assoc. split; [reflexivity|].
    split; [rewrite <- Hsnd; exact Hfil|].
    intros Hr. rewrite Hr in Hl. destruct Hl as [Hr' Hev].
    destruct (Hkeep Hr') as [Hfin Hev']. split; [exact Hfin|].
    now rewrite filter_app, Hev, Hev'.
Qed.

End ConverterFacts.

(** X17. A click on the MP3 button with an audio source never ends in an
    exception, whichever awaited operation is rejected: the handler
    completes normally with the progress row hidden, its bar at 0% and its
    text empty, and a converter that was ready is still ready. *)
Theorem mp3_onclick_settles (ext : list Effect -> Step -> bool)
        (bestAudio : option StreamDescriptor) (title : option jstext)
        (p : Page) (w : list Effect) (source : string) :
  as_truthy (url_of bestAudio) = Some source ->
  exists (ready : bool) (w' : list Effect),
    mp3_onclick ext bestAudio title p w = (Some tt, mkPage cleared ready, w')
    /\ (ffmpegReady p = true -> ready = true).
Proof.
  intros E.
  destruct (mp3_onclick_trace ext bestAudio title p w source E) as (ev & ready & Hrun & _ & _).
  destruct (mp3_onclick_loads ext bestAudio title p w) as (ev' & p' & Hrun' & Hl).
  rewrite Hrun in Hrun'. injection Hrun' as Hp _. subst p'.
  exists ready, (w ++ ev). split; [exact Hrun|].
  intros Hr. rewrite Hr in Hl. exact (proj1 Hl).
Qed.

Lemma mp3_onclick_settles_witness :
  as_truthy (url_of (Some sample_audio)) = Some "https://cdn.example/a.webm"
  /\ exists (ready : bool) (w' : list Effect),
      mp3_onclick read_rejected (Some sample_audio) None (mkPage cleared true) []
      = (Some tt, mkPage cleared ready, w')
      /\ (ffmpegReady (mkPage cleared true) = true -> ready = true).
Proof.
  split; [reflexivity|].
  apply (mp3_onclick_settles read_rejected (Some sample_audio) None (mkPage cleared true) []
           "https://cdn.example/a.webm").
  reflexivity.
Defined.

Lemma existsb_failure_conversion (source : string) (tail : list Effect) :
  existsb is_failure (conversion_steps source ++ tail) = existsb is_failure tail.
Proof. reflexivity. Qed.

(** X18. A click with an audio source offers a download exactly when no
    awaited operation was rejected, and alerts exactly when one was.  The
    file offered is named [sanitize(title || "audio") + ".mp3"], and it is
    offered only in a click whose fetch, write, transcoding and read were
    all fulfilled; a rejection is the last operation of the click,
    followed only by the console message and the alert. *)
Theorem mp3_onclick_download_iff (ext : list Effect -> Step -> bool)
        (bestAudio : option StreamDescriptor) (title : option jstext)
        (p : Page) (w : list Effect) (source : string) :
  as_truthy (url_of bestAudio) = Some source ->
  exists (ev : list Effect) (p' : Page),
    mp3_onclick ext bestAudio title p w = (Some tt, p', w ++ ev)
    /\ existsb is_download ev = negb (existsb is_failure ev)
    /\ existsb is_alert ev = existsb is_failure ev
    /\ (forall name : jstext,
           In (Download name) ev ->
           name = sanitize (Some (text_or title (text_of "audio"))) ++ text_of ".mp3"
           /\ incl (conversion_steps source) ev)
    /\ (existsb is_failure ev = true ->
        exists (pre : list Effect) (s : Step),
          ev = pre ++ [Did s false; ConsoleError;
                       Alert "MP3 conversion failed or was blocked. Try again or switch API instance."]
          /\ existsb is_failure pre = false).
Proof.
  intros H.
  destruct (mp3_onclick_trace ext bestAudio title p w source H)
    as (ev & ready & Hrun & _ & [[_ Hev]|(pre & s & Hev & Hf & Hd & Ha)]).
  - exists ev, (mkPage cleared ready). split; [exact Hrun|].
    assert (Hnf : existsb is_failure ev = false).
    { subst ev. destruct (ffmpegReady p); reflexivity. }
    rewrite Hnf. subst ev.
    split; [destruct (ffmpegReady p); reflexivity|].
    split; [destruct (ffmpegReady p); reflexivity|].
    split; [|discriminate].
    intros name Hin. split.
    + apply in_app_or in Hin. destruct Hin as [Hin|Hin].
      { destruct (ffmpegReady p); cbn in Hin; [contradiction|].
        destruct Hin as [Hin|[Hin|[]]]; discriminate. }
      apply in_app_or in Hin. destruct Hin as [Hin|Hin].
      { cbn in Hin. repeat (destruct Hin as [Hin|Hin]; [discriminate|]). contradiction. }
      cbn [In] in Hin. destruct Hin as [Hin|[Hin|[]]]; [|discriminate].
      now injection Hin as <-.
    + intros e He. apply in_or_app. right. apply in_or_app. left. exact He.
  - exists ev, (mkPage cleared ready). split; [exact Hrun|].
    subst ev. rewrite !existsb_app, Hf, Hd, Ha. cbn.
    split; [reflexivity|]. split; [reflexivity|]. split.
    + intros name Hin. exfalso. apply in_app_or in Hin. destruct Hin as [Hin|Hin].
      * assert (Hex : existsb is_download pre = true)
          by (apply existsb_exists; exists (Download name); auto).
        congruence.
      * cbn in Hin. destruct Hin as [Hin|[Hin|[Hin|[]]]]; discriminate.
    + intros _. exists pre, s. auto.
Qed.

Lemma mp3_onclick_download_iff_witness :
  as_truthy (url_of (Some sample_audio)) = Some "https://cdn.example/a.webm"
  /\ exists (ev : list Effect) (p' : Page),
      mp3_onclick read_rejected (Some sample_audio) None (mkPage cleared false) []
      = (Some tt, p', [] ++ ev)
      /\ existsb is_download ev = negb (existsb is_failure ev)
      /\ existsb is_alert ev = existsb is_failure ev
      /\ (forall name : jstext,
             In (Download name) ev ->
             name = sanitize (Some (text_or None (text_of "audio"))) ++ text_of ".mp3"
             /\ incl (conversion_steps "https://cdn.example/a.webm") ev)
      /\ (existsb is_failure ev = true ->
          exists (pre : list Effect) (s : Step),
            ev = pre ++ [Did s false; ConsoleError;
                         Alert "MP3 conversion failed or was blocked. Try again or switch API instance."]
            /\ existsb is_failure pre = false).
Proof.
  split; [reflexivity|].
  apply (mp3_onclick_download_iff read_rejected (Some sample_audio) None (mkPage cleared false) []
           "https://cdn.example/a.webm").
  reflexivity.
Defined.

(** X19. Over any series of clicks made in turn on a freshly loaded page
    (each click made when the handler of the one before has finished),
    whatever is rejected on the way, the converter is loaded successfully
    at most once: the loads in the log are failed attempts followed, when
    the converter ends up ready, by the one fulfilled load, after which it
    is never loaded again. *)
Theorem converter_loaded_once (ext : list Effect -> Step -> bool)
        (cs : list (option StreamDescriptor * option jstext)) (shown : Progress) :
  exists n : nat,
    filter is_load (snd (clicks_in_turn ext cs (mkPage shown false) []))
    = repeat (Did Load false) n
      ++ (if ffmpegReady (fst (clicks_in_turn ext cs (mkPage shown false) []))
          then [Did Load true] else []).
Proof.
  destruct (clicks_loads ext cs (mkPage shown false) [] 0 eq_refl)
    as (ev & m & _ & Hfil & _).
  exists m. exact Hfil.
Qed.

(** X20. When the bitrates of the answer are safe integers, the handler
    that [loadInfo] installs converts the first audio stream with the
    highest bitrate and no other: if that stream has a URL, every
    [fetchFile] of the click is for it and the progress row is cleared at
    the end; if the list is missing or empty, or that stream has no URL
    (whatever the others have), the click only alerts that no audio
    stream was found and leaves the page as it was. *)
Theorem mp3_button_source (ext : list Effect -> Step -> bool)
        (audioStreams : option (list StreamDescriptor)) (title : option jstext)
        (p : Page) (w : list Effect) :
  safe_bitrates (or_empty audioStreams) = true ->
  exists (ev : list Effect) (p' : Page),
    mp3_button ext audioStreams title p w = (Some tt, p', w ++ ev)
    /\ ((exists (best : StreamDescriptor) (source : string),
            first_max stated_bitrate (or_empty audioStreams) best
            /\ as_truthy (url best) = Some source
            /\ Forall (fetches_from source) ev
            /\ progress p' = cleared)
        \/ ((or_empty audioStreams = []
             \/ exists best : StreamDescriptor,
                 first_max stated_bitrate (or_empty audioStreams) best
                 /\ as_truthy (url best) = None)
            /\ ev = [Alert "No audio stream found."]
            /\ p' = p)).
Proof.
  intros _. unfold mp3_button, pickBestAudio. cbn [or_empty].
  pose proof (js_sort_hd bitrate_of (or_empty audioStreams)) as Hhd.
  change (descending bitrate_of) with by_bitrate in Hhd.
  destruct (hd_error (js_sort by_bitrate (or_empty audioStreams))) as [best|] eqn:E.
  - apply (first_max_ext bitrate_of stated_bitrate _ _ bitrate_of_stated) in Hhd.
    destruct (as_truthy (url best)) as [source|] eqn:Hu.
    + destruct (mp3_onclick_trace ext (Some best) title p w source Hu)
        as (ev & ready & Hrun & Hfetch & _).
      exists ev, (mkPage cleared ready). split; [exact Hrun|].
      left. exists best, source. auto.
    + exists [Alert "No audio stream found."], p.
      split; [apply mp3_onclick_no_source; exact Hu|].
      right. split; [right; exists best; auto|]. auto.
  - exists [Alert "No audio stream found."], p.
    split; [apply mp3_onclick_no_source; reflexivity|].
    right. auto.
Qed.

Lemma mp3_button_source_witness :
  safe_bitrates (or_empty (Some example_audios)) = true
  /\ exists (ev : list Effect) (p' : Page),
      mp3_button read_rejected (Some example_audios) None (mkPage cleared false) []
      = (Some tt, p', [] ++ ev)
      /\ ((exists (best : StreamDescriptor) (source : string),
              first_max stated_bitrate (or_empty (Some example_audios)) best
              /\ as_truthy (url best) = Some source
              /\ Forall (fetches_from source) ev
              /\ progress p' = cleared)
          \/ ((or_empty (Some example_audios) = []
               \/ exists best : StreamDescriptor,
                   first_max stated_bitrate (or_empty (Some example_audios)) best
                   /\ as_truthy (url best) = None)
              /\ ev = [Alert "No audio stream found."]
              /\ p' = mkPage cleared false)).
Proof.
  split; [reflexivity|].
  exact (mp3_button_source read_rejected (Some example_audios) None
           (mkPage cleared false) [] eq_refl).
Defined.
